(** * forcesmip: the monthly low-pass filter [lpf_modata]

    A shallow embedding of [scripts/butterworthfilter.aa.py].  The script
    holds one function, [lpf_modata(dat, period)], which designs a 4th-order
    Butterworth low-pass filter from a cutoff period in months and applies
    it forward and backward along axis 0 of an xarray [DataArray], after
    replacing the missing values by zero and before masking them back.

    Conventions of the model.
    - Python floats are exact rationals ([Q]) or the not-a-number marker;
      rounding, overflow and the infinities are outside the model.
    - Python exceptions are values of [exn]; a computation is a function
      from the interpreter state ([world]: the object heap and the standard
      output) to the new state and either an exception or a result.
    - The calls into [scipy.signal] and [xarray] are modelled after the
      behaviour of those libraries that the function relies on.  The one
      part that has no rational form, the computation of the Butterworth
      coefficients themselves (tangent pre-warping, complex pole placement),
      is a parameter of the development.
    - The lines of the script around the function, which read the variable
      [aa] of [tmp.nc], call [lpf_modata(arr, period=120)] and write
      [tmp2.nc], are input and output and are not modelled. *)

From Stdlib Require Import String QArith ZArith Arith List Bool Lia.
From Stdlib Require Import Qfield.
Import ListNotations.

Local Open Scope Q_scope.

(** ** Python values and exceptions *)

Inductive exn : Type :=
| ZeroDivisionError
| ValueError (msg : string)
| IndexError (msg : string)
| TypeError (msg : string).

(** A double: a number or NaN.  The arithmetic keeps its results in lowest
    terms, so that equal numbers are equal terms. *)
Inductive pyfloat : Type :=
| NaN
| Num (q : Q).

Definition isnan (x : pyfloat) : bool :=
  match x with NaN => true | Num _ => false end.

Definition fadd (x y : pyfloat) : pyfloat :=
  match x, y with Num a, Num b => Num (Qred (a + b)) | _, _ => NaN end.

Definition fsub (x y : pyfloat) : pyfloat :=
  match x, y with Num a, Num b => Num (Qred (a - b)) | _, _ => NaN end.

Definition fmul (x y : pyfloat) : pyfloat :=
  match x, y with Num a, Num b => Num (Qred (a * b)) | _, _ => NaN end.

(** [c * x] for a coefficient [c]. *)
Definition fscale (c : Q) (x : pyfloat) : pyfloat := fmul (Num c) x.

(** Equality of doubles up to the value of the rational. *)
Definition feq (x y : pyfloat) : Prop :=
  match x, y with
  | NaN, NaN => True
  | Num a, Num b => a == b
  | _, _ => False
  end.

(** What [print] receives. *)
Inductive pyobj : Type :=
| PStr (s : string)
| PNum (q : Q).

(** ** Arrays *)

(** A numpy array: its shape and its elements in row-major order. *)
Record ndarray (A : Type) : Type := mk_ndarray {
  shape : list nat;
  data : list A
}.
Arguments mk_ndarray {A} _ _.
Arguments shape {A} _.
Arguments data {A} _.

(** An xarray [DataArray]: named dimensions, coordinate variables and the
    wrapped numpy array. *)
Record DataArray (A : Type) : Type := mk_DataArray {
  dims : list string;
  coords : list (string * list Q);
  values : ndarray A
}.
Arguments mk_DataArray {A} _ _ _.
Arguments dims {A} _.
Arguments coords {A} _.
Arguments values {A} _.

(** The objects of the heap: arrays of doubles and arrays of booleans (the
    result of [notnull]). *)
Inductive object : Type :=
| FloatArray (a : DataArray pyfloat)
| BoolArray (a : DataArray bool).

Definition loc := nat.

Record world : Type := mk_world {
  heap : list object;
  stdout : list (list pyobj)
}.

(** ** The interpreter monad *)

Definition py (A : Type) : Type := world -> world * (exn + A).

Definition ret {A} (a : A) : py A := fun w => (w, inr a).

Definition raise {A} (e : exn) : py A := fun w => (w, inl e).

Definition bind {A B} (m : py A) (k : A -> py B) : py B :=
  fun w =>
    match m w with
    | (w', inl e) => (w', inl e)
    | (w', inr a) => k a w'
    end.

(** A library call that needs no state. *)
Definition lift {A} (r : exn + A) : py A := fun w => (w, r).

Declare Scope py_scope.
Delimit Scope py_scope with py.
Notation "x <- m ;; k" := (bind m (fun x => k))
  (at level 61, m at next level, right associativity) : py_scope.
Notation "m ;;; k" := (bind m (fun _ => k))
  (at level 61, right associativity) : py_scope.
Local Open Scope py_scope.

(** [print]: its arguments make one line of the standard output. *)
Definition print (args : list pyobj) : py unit :=
  fun w => (mk_world (heap w) (stdout w ++ [args]), inr tt).

(** A new object; its location is the next free one. *)
Definition alloc (o : object) : py loc :=
  fun w => (mk_world (heap w ++ [o]) (stdout w), inr (length (heap w))).

Definition load_float (l : loc) : py (DataArray pyfloat) :=
  fun w =>
    match nth_error (heap w) l with
    | Some (FloatArray a) => (w, inr a)
    | _ => (w, inl (TypeError "not an array of floats"))
    end.

Definition load_bool (l : loc) : py (DataArray bool) :=
  fun w =>
    match nth_error (heap w) l with
    | Some (BoolArray a) => (w, inr a)
    | _ => (w, inl (TypeError "not an array of booleans"))
    end.

(** [x / y] on Python floats. *)
Definition truediv (x y : Q) : py Q :=
  if Qeq_bool y 0 then raise ZeroDivisionError else ret (x / y).

(** ** scipy.signal: second-order sections *)

(** One row of a second-order-sections array, [b0 b1 b2 1 a1 a2]; the
    fourth entry is always one in what the design routines return. *)
Record biquad : Type := mk_biquad {
  b0 : Q; b1 : Q; b2 : Q;
  a1 : Q; a2 : Q
}.

Inductive btype : Type := lowpass | highpass.

(** The [output] keyword of the design routines, and what each returns:
    the pair [(b, a)] of a transfer function (the default) or the array of
    second-order sections. *)
Inductive output : Type := ba | sos.

Definition coeffs (o : output) : Type :=
  match o with
  | ba => (list Q * list Q)%type
  | sos => list biquad
  end.

Inductive padtype : Type := pad_odd | pad_even | pad_constant.

(** One sample through one section (direct form II transposed):
    [x_new = b0*x + z0; z0 = b1*x - a1*x_new + z1; z1 = b2*x - a2*x_new]. *)
Definition biquad_step (s : biquad) (x : pyfloat) (z : pyfloat * pyfloat)
  : pyfloat * (pyfloat * pyfloat) :=
  let x_new := fadd (fscale (b0 s) x) (fst z) in
  (x_new,
   (fadd (fsub (fscale (b1 s) x) (fscale (a1 s) x_new)) (snd z),
    fsub (fscale (b2 s) x) (fscale (a2 s) x_new))).

(** One sample through the cascade of sections. *)
Fixpoint cascade (ss : list biquad) (zs : list (pyfloat * pyfloat))
  (x : pyfloat) : pyfloat * list (pyfloat * pyfloat) :=
  match ss, zs with
  | s :: ss', z :: zs' =>
      let '(y, z') := biquad_step s x z in
      let '(out, zs'') := cascade ss' zs' y in
      (out, z' :: zs'')
  | _, _ => (x, [])
  end.

(** [sosfilt(sos, x, zi=zs)] on a one-dimensional signal; the final state
    it also returns is not used by [sosfiltfilt]. *)
Fixpoint sosfilt (ss : list biquad) (xs : list pyfloat)
  (zs : list (pyfloat * pyfloat)) : list pyfloat :=
  match xs with
  | [] => []
  | x :: xs' =>
      let '(y, zs') := cascade ss zs x in
      y :: sosfilt ss xs' zs'
  end.

(** [lfilter_zi] of one section: the state of the step response's steady
    state. *)
Definition lfilter_zi (s : biquad) : Q * Q :=
  let B0 := b1 s - a1 s * b0 s in
  let B1 := b2 s - a2 s * b0 s in
  let z0 := (B0 + B1) / (1 + a1 s + a2 s) in
  (z0, (1 + a1 s) * z0 - B0).

(** The gain of a section at frequency zero, [b.sum() / a.sum()]. *)
Definition dc_gain (s : biquad) : Q :=
  (b0 s + b1 s + b2 s) / (1 + a1 s + a2 s).

(** [sosfilt_zi]: each section's state is scaled by the gain of the
    sections before it. *)
Fixpoint sosfilt_zi_from (scale : Q) (ss : list biquad) : list (Q * Q) :=
  match ss with
  | [] => []
  | s :: ss' =>
      (scale * fst (lfilter_zi s), scale * snd (lfilter_zi s))
        :: sosfilt_zi_from (scale * dc_gain s) ss'
  end.

Definition sosfilt_zi (ss : list biquad) : list (Q * Q) :=
  sosfilt_zi_from 1 ss.

(** [zi * x_0]. *)
Definition scale_zi (zi : list (Q * Q)) (x : pyfloat)
  : list (pyfloat * pyfloat) :=
  map (fun z => (fscale (fst z) x, fscale (snd z) x)) zi.

(** The extensions of a signal by [n] samples at both ends:
    [even_ext] mirrors the signal about its end samples,
    [odd_ext] reflects it through the end points,
    [const_ext] repeats the end samples. *)
Definition even_ext (x : list pyfloat) (n : nat) : list pyfloat :=
  rev (firstn n (tl x)) ++ x ++ firstn n (tl (rev x)).

Definition odd_ext (x : list pyfloat) (n : nat) : list pyfloat :=
  map (fun v => fsub (fscale 2 (hd NaN x)) v) (rev (firstn n (tl x)))
  ++ x
  ++ map (fun v => fsub (fscale 2 (last x NaN)) v) (firstn n (tl (rev x))).

Definition const_ext (x : list pyfloat) (n : nat) : list pyfloat :=
  repeat (hd NaN x) n ++ x ++ repeat (last x NaN) n.

Definition extend (pad : option padtype) (x : list pyfloat) (edge : nat)
  : list pyfloat :=
  match pad with
  | None => x
  | Some pad_even => even_ext x edge
  | Some pad_odd => odd_ext x edge
  | Some pad_constant => const_ext x edge
  end.

(** The number of taps that [sosfiltfilt] derives from the sections, and
    the default pad length, three times that number. *)
Definition count_zero (f : biquad -> Q) (ss : list biquad) : nat :=
  List.length (filter (fun s => Qeq_bool (f s) 0) ss).

Definition ntaps (ss : list biquad) : nat :=
  (2 * List.length ss + 1 - Nat.min (count_zero b2 ss) (count_zero a2 ss))%nat.

Definition default_padlen (ss : list biquad) : nat := (ntaps ss * 3)%nat.

(** Forward pass, backward pass and removal of the padding, on one
    extended signal. *)
Definition filtfilt_lane (ss : list biquad) (ext : list pyfloat)
  (edge : nat) : list pyfloat :=
  let zi := sosfilt_zi ss in
  let x_0 := hd NaN ext in
  let y := sosfilt ss ext (scale_zi zi x_0) in
  let y_0 := last y NaN in
  let y := sosfilt ss (rev y) (scale_zi zi y_0) in
  let y := rev y in
  if (0 <? edge)%nat
  then firstn (List.length y - 2 * edge) (skipn edge y)
  else y.

(** *** Slices along an axis *)

Definition prod_list (l : list nat) : nat := fold_right Nat.mul 1%nat l.

(** The distance in [data] between neighbours along [axis]. *)
Definition stride (sh : list nat) (axis : nat) : nat :=
  prod_list (skipn (S axis) sh).

(** The index along [axis] of the element at flat position [k]. *)
Definition axis_index (sh : list nat) (axis k : nat) : nat :=
  ((k / stride sh axis) mod nth axis sh 0)%nat.

(** The one-dimensional slice along [axis] through flat position [k]. *)
Definition lane {A} (dflt : A) (x : ndarray A) (axis k : nat) : list A :=
  let st := stride (shape x) axis in
  let base := (k - axis_index (shape x) axis k * st)%nat in
  map (fun t => nth (base + t * st) (data x) dflt)
      (seq 0 (nth axis (shape x) 0%nat)).

(** A function of one-dimensional signals applied to every slice along
    [axis]. *)
Definition along_axis (f : list pyfloat -> list pyfloat)
  (x : ndarray pyfloat) (axis : nat) : ndarray pyfloat :=
  mk_ndarray (shape x)
    (map (fun k => nth (axis_index (shape x) axis k) (f (lane NaN x axis k)) NaN)
         (seq 0 (List.length (data x)))).

(** *** [sosfiltfilt] *)

Definition no_axis_error : exn := ValueError "x must be at least 1-D".

(** The message of scipy ends with the pad length, left out here. *)
Definition short_axis_error : exn :=
  ValueError "The length of the input vector x must be greater than padlen".

Record filtfilt_kwargs : Type := mk_kwargs {
  kw_padtype : option padtype;
  kw_axis : nat
}.

(** [sosfiltfilt(sos, x, axis, padtype)] with [padlen] left at its
    default: the input is validated, every slice along the axis is extended
    by [edge] samples at both ends, filtered forward and backward from the
    steady state of its first sample, and cut back to its length. *)
Definition sosfiltfilt (ss : list biquad) (x : ndarray pyfloat)
  (kw : filtfilt_kwargs) : exn + ndarray pyfloat :=
  match shape x with
  | [] => inl no_axis_error
  | _ :: _ =>
      let edge := match kw_padtype kw with
                  | None => 0%nat
                  | Some _ => default_padlen ss
                  end in
      match nth_error (shape x) (kw_axis kw) with
      | None => inl (IndexError "tuple index out of range")
      | Some n =>
          if (n <=? edge)%nat
          then inl short_axis_error
          else inr (along_axis
                      (fun l => filtfilt_lane ss (extend (kw_padtype kw) l edge) edge)
                      x (kw_axis kw))
      end
  end.

(** ** xarray *)

Definition map_values {A B} (f : A -> B) (a : DataArray A) : DataArray B :=
  mk_DataArray (dims a) (coords a)
    (mk_ndarray (shape (values a)) (map f (data (values a)))).

(** [d.fillna(v)]: a new array with [v] at the missing positions. *)
Definition fillna (d : loc) (v : Q) : py loc :=
  a <- load_float d ;;
  alloc (FloatArray (map_values (fun x => if isnan x then Num v else x) a)).

(** [d.notnull()]: a new boolean array, false at the missing positions. *)
Definition notnull (d : loc) : py loc :=
  a <- load_float d ;;
  alloc (BoolArray (map_values (fun x => negb (isnan x)) a)).

(** [d.where(cond)]: a new array with the values of [d] where [cond] holds
    and NaN elsewhere.  Both operands have the dimensions and coordinates of
    the same array wherever the function below calls it, so the alignment and
    broadcasting that xarray performs on operands of different dimensions are
    not modelled. *)
Definition where_ (d cond : loc) : py loc :=
  a <- load_float d ;;
  c <- load_bool cond ;;
  alloc (FloatArray
    (mk_DataArray (dims a) (coords a)
       (mk_ndarray (shape (values a))
          (map (fun xc : pyfloat * bool => if snd xc then fst xc else NaN)
               (combine (data (values a)) (data (values c))))))).

Definition shape_eqb (s t : list nat) : bool :=
  if list_eq_dec Nat.eq_dec s t then true else false.

(** [xr.apply_ufunc(func, arg, d, kwargs=kw)] with no core dimensions:
    [func] receives [arg] as it is and the numpy array of [d]; its result is
    wrapped with the dimensions and coordinates of [d], whose sizes it must
    not change. *)
Definition apply_ufunc {P K : Type}
  (func : P -> ndarray pyfloat -> K -> exn + ndarray pyfloat)
  (arg : P) (d : loc) (kw : K) : py loc :=
  a <- load_float d ;;
  r <- lift (func arg (values a) kw) ;;
  if shape_eqb (shape r) (shape (values a))
  then alloc (FloatArray (mk_DataArray (dims a) (coords a) r))
  else raise (ValueError
         "size of dimension on inputs was unexpectedly changed by applied function").

(** The exception of the design routines for a critical frequency outside
    the open unit interval. *)
Definition critical_frequency_error : exn :=
  ValueError "Digital filter critical frequencies must be 0 < Wn < 1".

(** ** The filter *)

Section LowPassFilter.

(** The coefficients of the digital Butterworth filter of order [N] and
    normalised critical frequency [Wn], in the requested form. *)
Variable design : nat -> btype -> Q -> forall o : output, coeffs o.

(** [signal.butter(N, Wn, btype, output=o)]: a digital design needs
    [0 < Wn < 1]. *)
Definition butter (N : nat) (Wn : Q) (bt : btype) (o : output)
  : exn + coeffs o :=
  if Qle_bool Wn 0 || Qle_bool 1 Wn
  then inl critical_frequency_error
  else inr (design N bt Wn o).

(** Lines 7 to 10: the cutoff as a fraction of the Nyquist frequency.
    The three values are the variables [fs], [nyquist] and [cutoff]. *)
Definition normalized_cutoff (period : Q) : py (Q * Q * Q) :=
  fs <- truediv 1 (30.41667 * 24 * 3600) ;;
  nyquist <- truediv fs 2 ;;
  cutoff <- truediv fs period ;;
  cutoff <- truediv cutoff nyquist ;;
  ret (fs, nyquist, cutoff).

(** Line 11: the cutoff period recovered from [cutoff], printed. *)
Definition print_cutoff (nyquist cutoff : Q) : py unit :=
  t <- truediv 1 (cutoff * nyquist) ;;
  months <- truediv t (30.41667 * 24 * 3600) ;;
  print [PStr "cutoff= "; PNum months; PStr " months"].

Definition lpf_modata (dat : loc) (period : Q) : py loc :=
  v <- normalized_cutoff period ;;
  let '(fs, nyquist, cutoff) := v in
  print_cutoff nyquist cutoff ;;;
  filtsos <- lift (butter 4 cutoff lowpass sos) ;;
  filt <- lift (butter 4 cutoff lowpass ba) ;;
  let '(filtb, filta) := filt in
  filled <- fillna dat 0 ;;
  filtered <- apply_ufunc sosfiltfilt filtsos filled
                (mk_kwargs (Some pad_even) 0) ;;
  mask <- notnull dat ;;
  dat_out <- where_ filtered mask ;;
  print [PStr "Function call completed"] ;;;
  ret dat_out.

(** The function without line 13, the transfer-function design. *)
Definition lpf_modata_sos_only (dat : loc) (period : Q) : py loc :=
  v <- normalized_cutoff period ;;
  let '(fs, nyquist, cutoff) := v in
  print_cutoff nyquist cutoff ;;;
  filtsos <- lift (butter 4 cutoff lowpass sos) ;;
  filled <- fillna dat 0 ;;
  filtered <- apply_ufunc sosfiltfilt filtsos filled
                (mk_kwargs (Some pad_even) 0) ;;
  mask <- notnull dat ;;
  dat_out <- where_ filtered mask ;;
  print [PStr "Function call completed"] ;;;
  ret dat_out.

End LowPassFilter.

(** ** A design to run the model on

    A stable low-pass filter of order 4 with rational coefficients, standing
    in for the Butterworth coefficients when the model is evaluated: two
    equal sections with a double zero at -1, poles of modulus 1/2 and unit
    gain at frequency zero, whatever the cutoff. *)
Definition sample_section : biquad :=
  mk_biquad (3 # 16) (3 # 8) (3 # 16) (- (1 # 2)) (1 # 4).

Definition sample_design (N : nat) (bt : btype) (Wn : Q) (o : output)
  : coeffs o :=
  match o return coeffs o with
  | ba => ([9 # 256; 9 # 64; 27 # 128; 9 # 64; 9 # 256],
           [1; - 1; 3 # 4; - (1 # 4); 1 # 16])
  | sos => repeat sample_section (Nat.div2 (N + 1))
  end.

(** ** The values of the function's variables *)

Definition fs_value : Q := 1 / (30.41667 * 24 * 3600).

Definition nyquist_value : Q := fs_value / 2.

(** The value of [cutoff] after line 10. *)
Definition Wn (period : Q) : Q := fs_value / period / nyquist_value.

(** The number printed by line 11 and the line itself. *)
Definition recovered_period (period : Q) : Q :=
  1 / (Wn period * nyquist_value) / (30.41667 * 24 * 3600).

Definition cutoff_line (period : Q) : list pyobj :=
  [PStr "cutoff= "; PNum (recovered_period period); PStr " months"].

Definition completed_line : list pyobj := [PStr "Function call completed"].

(** The arrays that line 14 creates from the array [a] of [dat]. *)
Definition zero_filled (a : DataArray pyfloat) : DataArray pyfloat :=
  map_values (fun x => if isnan x then Num 0 else x) a.

Definition null_mask (a : DataArray pyfloat) : DataArray bool :=
  map_values (fun x => negb (isnan x)) a.

Definition lib_filtered (ss : list biquad) (a : DataArray pyfloat)
  : DataArray pyfloat :=
  mk_DataArray (dims a) (coords a)
    (along_axis
       (fun l => filtfilt_lane ss (even_ext l (default_padlen ss))
                   (default_padlen ss))
       (values (zero_filled a)) 0).

(** ** The transform as the specification words it

    Steps 6 to 9 of the algorithm, for sections [ss] designed in step 5:
    the mask of the missing values is recorded and the missing values are
    replaced by zero; every series along the time axis is extended evenly,
    filtered forward, filtered backward and cut back to its length; the
    missing values are restored; the result carries the dimensions and
    coordinates of the input. *)

Definition spec_mask (a : DataArray pyfloat) : list bool :=
  map isnan (data (values a)).

Definition spec_zero_fill (a : DataArray pyfloat) : ndarray pyfloat :=
  mk_ndarray (shape (values a))
    (map (fun x => match x with NaN => Num 0 | Num q => Num q end)
         (data (values a))).

Definition spec_zero_phase (ss : list biquad) (xs : list pyfloat)
  : list pyfloat :=
  let pad := default_padlen ss in
  let ext := even_ext xs pad in
  let fwd := sosfilt ss ext (scale_zi (sosfilt_zi ss) (hd NaN ext)) in
  let bwd := sosfilt ss (rev fwd) (scale_zi (sosfilt_zi ss) (last fwd NaN)) in
  firstn (List.length xs) (skipn pad (rev bwd)).

(** The filtered value at flat position [k]: the sample, at the time index
    of [k], of the filtered series through [k]. *)
Definition spec_filtered_at (ss : list biquad) (a : DataArray pyfloat)
  (k : nat) : pyfloat :=
  nth (axis_index (shape (values a)) 0 k)
      (spec_zero_phase ss (lane NaN (spec_zero_fill a) 0 k)) NaN.

Definition spec_filter (ss : list biquad) (a : DataArray pyfloat)
  : DataArray pyfloat :=
  mk_DataArray (dims a) (coords a)
    (mk_ndarray (shape (values a))
       (map (fun k => if nth k (spec_mask a) false
                      then NaN
                      else spec_filtered_at ss a k)
            (seq 0 (List.length (data (values a)))))).

(** ** Predicates of the statements *)

(** A numpy array holds as many elements as its shape says. *)
Definition wf_ndarray {A} (x : ndarray A) : Prop :=
  List.length (data x) = prod_list (shape x).




(** The error kinds of the specification, as the exceptions that the
    function raises for them. *)
Definition InvalidFilterSpec (e : exn) : Prop := e = critical_frequency_error.


(** The state after printing [ls] and creating the objects [os]. *)
Definition extend_world (w : world) (os : list object)
  (ls : list (list pyobj)) : world :=
  mk_world (heap w ++ os) (stdout w ++ ls).

(** ** The outcomes of a call *)

Section Outcomes.

Variable design : nat -> btype -> Q -> forall o : output, coeffs o.

(** The sections that line 12 designs. *)
Definition filtsos_of (period : Q) : list biquad :=
  design 4%nat lowpass (Wn period) sos.

Inductive lpf_outcome (w : world) (dat : loc) (period : Q)
  : world * (exn + loc) -> Prop :=
| zero_period :
    period == 0 ->
    lpf_outcome w dat period (w, inl ZeroDivisionError)
| invalid_cutoff :
    ~ period == 0 -> period <= 2 ->
    lpf_outcome w dat period
      (extend_world w [] [cutoff_line period], inl critical_frequency_error)
| not_an_array :
    2 < period ->
    (forall a, nth_error (heap w) dat <> Some (FloatArray a)) ->
    lpf_outcome w dat period
      (extend_world w [] [cutoff_line period],
       inl (TypeError "not an array of floats"))
| no_axis : forall a,
    2 < period ->
    nth_error (heap w) dat = Some (FloatArray a) ->
    shape (values a) = [] ->
    lpf_outcome w dat period
      (extend_world w [FloatArray (zero_filled a)] [cutoff_line period],
       inl no_axis_error)
| short_axis : forall a n rest,
    2 < period ->
    nth_error (heap w) dat = Some (FloatArray a) ->
    shape (values a) = n :: rest ->
    (n <= default_padlen (filtsos_of period))%nat ->
    lpf_outcome w dat period
      (extend_world w [FloatArray (zero_filled a)] [cutoff_line period],
       inl short_axis_error)
| filtered : forall a n rest,
    2 < period ->
    nth_error (heap w) dat = Some (FloatArray a) ->
    shape (values a) = n :: rest ->
    (default_padlen (filtsos_of period) < n)%nat ->
    lpf_outcome w dat period
      (extend_world w
         [FloatArray (zero_filled a);
          FloatArray (lib_filtered (filtsos_of period) a);
          BoolArray (null_mask a);
          FloatArray (spec_filter (filtsos_of period) a)]
         [cutoff_line period; completed_line],
       inr (List.length (heap w) + 3)%nat).

End Outcomes.

(** ** Sample inputs *)

(** Seventeen months, the fourth one missing. *)
Definition sample_series : DataArray pyfloat :=
  mk_DataArray ["time"%string]
    [("time"%string, map (fun k => inject_Z (Z.of_nat k)) (seq 0 17))]
    (mk_ndarray [17%nat]
       (map (fun k => if (k =? 3)%nat then NaN
                      else Num (inject_Z (Z.of_nat (k mod 5))))
            (seq 0 17))).

(** Seventeen months on two grid cells, with two values missing. *)
Definition sample_grid : DataArray pyfloat :=
  mk_DataArray ["time"%string; "cell"%string] []
    (mk_ndarray [17%nat; 2%nat]
       (map (fun k => if ((k =? 3) || (k =? 20))%nat then NaN
                      else Num (inject_Z (Z.of_nat (k mod 3))))
            (seq 0 34))).

(** Three months: too short for the padding. *)
Definition short_series : DataArray pyfloat :=
  mk_DataArray ["time"%string] [] (mk_ndarray [3%nat] [Num 1; NaN; Num 2]).

(** A single number, without any axis. *)
Definition scalar_array : DataArray pyfloat :=
  mk_DataArray [] [] (mk_ndarray [] [Num 1]).

(** Seventeen missing months. *)
Definition missing_series : DataArray pyfloat :=
  mk_DataArray ["time"%string] [] (mk_ndarray [17%nat] (repeat NaN 17)).

Definition sample_world : world :=
  mk_world
    [FloatArray sample_series; FloatArray sample_grid;
     FloatArray short_series; FloatArray scalar_array;
     FloatArray missing_series]
    [].

(** * Further notions for the properties of the code *)

(** The array that a call returns, when it returns. *)
Definition result_of (design : nat -> btype -> Q -> forall o : output, coeffs o)
  (w : world) (dat : loc) (period : Q) : option (DataArray pyfloat) :=
  match lpf_modata design dat period w with
  | (w', inr out) =>
      match nth_error (heap w') out with
      | Some (FloatArray o) => Some o
      | _ => None
      end
  | (_, inl _) => None
  end.

(** The sample grid with other values on its second cell. *)
Definition other_grid : DataArray pyfloat :=
  mk_DataArray ["time"%string; "cell"%string] []
    (mk_ndarray [17%nat; 2%nat]
       (map (fun k => if (k =? 20)%nat then NaN
                      else if Nat.even k
                           then Num (inject_Z (Z.of_nat (k mod 3)))
                           else Num (inject_Z (Z.of_nat (k * k))))
            (seq 0 34))).

(** The sample arrays, the zero-filled sample series and the other grid. *)
Definition second_world : world :=
  extend_world sample_world
    [FloatArray (zero_filled sample_series); FloatArray other_grid] [].

(** The gain of the cascade of sections at frequency zero. *)
Definition overall_gain (ss : list biquad) : Q :=
  fold_right (fun s g => g * dc_gain s) 1 ss.

(** The denominator of a section does not vanish at frequency zero. *)
Definition regular (s : biquad) : Prop := ~ 1 + a1 s + a2 s == 0.

(** The states of the sections are those of the steady state for the
    constant input [v]: every section holds its [lfilter_zi] times its own
    input, which is the input of the cascade times the gains before it. *)
Fixpoint steady (ss : list biquad) (zs : list (pyfloat * pyfloat)) (v : Q)
  : Prop :=
  match ss, zs with
  | [], [] => True
  | s :: ss', z :: zs' =>
      feq (fst z) (Num (v * fst (lfilter_zi s)))
      /\ feq (snd z) (Num (v * snd (lfilter_zi s)))
      /\ steady ss' zs' (dc_gain s * v)
  | _, _ => False
  end.

(** Seventeen months of the same value. *)
Definition constant_series : DataArray pyfloat :=
  mk_DataArray ["time"%string] [] (mk_ndarray [17%nat] (repeat (Num 7) 17)).

Definition constant_world : world :=
  mk_world [FloatArray constant_series] [].

(** [z] is the combination [al * x + be * y]; missing when [x] or [y] is. *)
Definition lincomb (al be : Q) (x y z : pyfloat) : Prop :=
  feq z (fadd (fscale al x) (fscale be y)).

(** The combination, on both numbers of the state of a section. *)
Definition lincomb_state (al be : Q) (u v t : pyfloat * pyfloat) : Prop :=
  lincomb al be (fst u) (fst v) (fst t)
  /\ lincomb al be (snd u) (snd v) (snd t).

(** Three lists related element by element. *)
Inductive Forall3 {A B C : Type} (R : A -> B -> C -> Prop)
  : list A -> list B -> list C -> Prop :=
| Forall3_nil : Forall3 R [] [] []
| Forall3_cons : forall x y z l l' l'',
    R x y z -> Forall3 R l l' l'' ->
    Forall3 R (x :: l) (y :: l') (z :: l'').

(** The sample series in other units (times 5/9), and the sum of the two. *)
Definition scaled_series : DataArray pyfloat :=
  map_values (fscale (5 # 9)) sample_series.

Definition summed_series : DataArray pyfloat :=
  mk_DataArray ["time"%string] []
    (mk_ndarray [17%nat]
       (map (fun xy => fadd (fst xy) (snd xy))
            (combine (data (values sample_series))
                     (data (values scaled_series))))).

Definition linear_world : world :=
  mk_world
    [FloatArray sample_series; FloatArray scaled_series;
     FloatArray summed_series]
    [].


(** * Lemmas *)

(** ** Running the monad *)

Lemma bind_ok {A B} (m : py A) (k : A -> py B) w w' a :
  m w = (w', inr a) -> bind m k w = k a w'.
Proof. intros H. unfold bind. now rewrite H. Qed.

Lemma bind_raise {A B} (m : py A) (k : A -> py B) w w' e :
  m w = (w', inl e) -> bind m k w = (w', inl e).
Proof. intros H. unfold bind. now rewrite H. Qed.

Lemma truediv_ok x y w : ~ y == 0 -> truediv x y w = (w, inr (x / y)).
Proof.
  intros Hy. unfold truediv.
  destruct (Qeq_bool y 0) eqn:E; [|reflexivity].
  apply Qeq_bool_iff in E. contradiction.
Qed.

Lemma truediv_zero x y w : y == 0 -> truediv x y w = (w, inl ZeroDivisionError).
Proof.
  intros Hy. unfold truediv.
  apply Qeq_bool_iff in Hy. now rewrite Hy.
Qed.

(** ** The cutoff in exact arithmetic *)

Lemma month_seconds_nonzero : ~ 30.41667 * 24 * 3600 == 0.
Proof. discriminate. Qed.

Lemma Wn_exact p : ~ p == 0 -> Wn p == 2 / p.
Proof.
  intros Hp. unfold Wn, nyquist_value, fs_value. field. exact Hp.
Qed.

Lemma recovered_period_exact p : ~ p == 0 -> recovered_period p == p.
Proof.
  intros Hp. unfold recovered_period, Wn, nyquist_value, fs_value.
  field. exact Hp.
Qed.

Lemma Wn_times_nyquist_nonzero p : ~ p == 0 -> ~ Wn p * nyquist_value == 0.
Proof.
  intros Hp H.
  assert (E : Wn p * nyquist_value == fs_value / p).
  { unfold Wn, nyquist_value, fs_value. field. exact Hp. }
  rewrite E in H. unfold fs_value in H.
  assert (F : 1 / (30.41667 * 24 * 3600) / p * (p * (30.41667 * 24 * 3600)) == 1)
    by (field; exact Hp).
  rewrite H in F. discriminate F.
Qed.

Lemma Wn_positive p : 0 < p -> 0 < Wn p.
Proof.
  intros Hp. rewrite Wn_exact.
  - apply Qlt_shift_div_l; [exact Hp|]. rewrite Qmult_0_l. reflexivity.
  - intros E. rewrite E in Hp. discriminate Hp.
Qed.

Lemma Wn_below_one p : 2 < p -> Wn p < 1.
Proof.
  intros Hp.
  assert (P : 0 < p) by (apply Qlt_trans with 2; [reflexivity|exact Hp]).
  rewrite Wn_exact.
  - apply Qlt_shift_div_r; [exact P|]. now rewrite Qmult_1_l.
  - intros E. rewrite E in P. discriminate P.
Qed.

Lemma Wn_at_least_one p : 0 < p -> p <= 2 -> 1 <= Wn p.
Proof.
  intros P Hp. rewrite Wn_exact.
  - apply Qle_shift_div_l; [exact P|]. now rewrite Qmult_1_l.
  - intros E. rewrite E in P. discriminate P.
Qed.

Lemma Wn_negative p : p < 0 -> Wn p < 0.
Proof.
  intros Hp.
  assert (N : ~ p == 0) by (intros E; rewrite E in Hp; discriminate Hp).
  assert (P : 0 < - p).
  { apply Qopp_lt_compat in Hp. exact Hp. }
  assert (E : Wn p == - (2 / - p)).
  { rewrite (Wn_exact p N). field. exact N. }
  rewrite E.
  assert (Q0 : 0 < 2 / - p).
  { apply Qlt_shift_div_l; [exact P|]. rewrite Qmult_0_l. reflexivity. }
  apply Qopp_lt_compat in Q0. exact Q0.
Qed.

Lemma cutoff_accepted p : 2 < p -> Qle_bool (Wn p) 0 || Qle_bool 1 (Wn p) = false.
Proof.
  intros Hp.
  assert (P : 0 < p) by (apply Qlt_trans with 2; [reflexivity|exact Hp]).
  apply orb_false_iff. split.
  - destruct (Qle_bool (Wn p) 0) eqn:E; [|reflexivity].
    apply Qle_bool_iff in E. apply Qle_not_lt in E.
    exfalso. apply E. now apply Wn_positive.
  - destruct (Qle_bool 1 (Wn p)) eqn:E; [|reflexivity].
    apply Qle_bool_iff in E. apply Qle_not_lt in E.
    exfalso. apply E. now apply Wn_below_one.
Qed.

Lemma cutoff_rejected p :
  ~ p == 0 -> p <= 2 -> Qle_bool (Wn p) 0 || Qle_bool 1 (Wn p) = true.
Proof.
  intros N Hp. apply orb_true_iff.
  destruct (Qlt_le_dec p 0) as [Neg|Pos].
  - left. apply Qle_bool_iff. apply Qlt_le_weak. now apply Wn_negative.
  - right. apply Qle_bool_iff. apply Wn_at_least_one; [|exact Hp].
    apply Qle_lteq in Pos. destruct Pos as [Pos|Pos]; [exact Pos|].
    exfalso. apply N. symmetry. exact Pos.
Qed.

(** ** Lists *)

Lemma nth_map_seq {A} (f : nat -> A) (n k : nat) (d : A) :
  (k < n)%nat -> nth k (map f (seq 0 n)) d = f k.
Proof.
  intros H.
  rewrite (nth_indep _ d (f 0%nat)) by now rewrite length_map, length_seq.
  rewrite map_nth, seq_nth by exact H. reflexivity.
Qed.

Lemma list_as_seq {A} (d : A) (l : list A) :
  l = map (fun k => nth k l d) (seq 0 (List.length l)).
Proof.
  apply nth_ext with (d := d) (d' := d).
  - now rewrite length_map, length_seq.
  - intros k Hk. now rewrite nth_map_seq.
Qed.

Lemma combine_map_same {A B C} (f : A -> B) (g : A -> C) (s : list A) :
  combine (map f s) (map g s) = map (fun k => (f k, g k)) s.
Proof. induction s as [|x s IH]; simpl; [reflexivity|now rewrite IH]. Qed.

Lemma nth_error_alloc {A} (l : list A) (os : list A) (k : nat) :
  nth_error (l ++ os) (List.length l + k) = nth_error os k.
Proof.
  rewrite nth_error_app2 by lia.
  f_equal. lia.
Qed.

Lemma nth_error_old {A} (l os : list A) (k : nat) (o : A) :
  nth_error l k = Some o -> nth_error (l ++ os) k = Some o.
Proof.
  intros H. rewrite nth_error_app1; [exact H|].
  apply nth_error_Some. congruence.
Qed.

(** ** The filter on one signal *)

Lemma sosfilt_length ss : forall xs zs,
  List.length (sosfilt ss xs zs) = List.length xs.
Proof.
  induction xs as [|x xs IH]; intros zs; [reflexivity|].
  simpl. destruct (cascade ss zs x). simpl. now rewrite IH.
Qed.

Lemma even_ext_length xs n :
  (n < List.length xs)%nat ->
  List.length (even_ext xs n) = (List.length xs + 2 * n)%nat.
Proof.
  intros H. unfold even_ext.
  assert (T : forall l : list pyfloat, List.length (tl l) = (List.length l - 1)%nat).
  { intros [|? ?]; simpl; lia. }
  rewrite !length_app, length_rev, !length_firstn, !T, length_rev. lia.
Qed.

Lemma ntaps_positive ss : (0 < ntaps ss)%nat.
Proof.
  unfold ntaps, count_zero.
  pose proof (filter_length_le (fun s => Qeq_bool (b2 s) 0) ss).
  lia.
Qed.

Lemma default_padlen_positive ss : (0 < default_padlen ss)%nat.
Proof. unfold default_padlen. pose proof (ntaps_positive ss). lia. Qed.

(** The library's forward-backward pass on the evenly extended signal is
    the zero-phase filter of the specification. *)
Lemma filtfilt_lane_even ss xs :
  (default_padlen ss < List.length xs)%nat ->
  filtfilt_lane ss (even_ext xs (default_padlen ss)) (default_padlen ss)
  = spec_zero_phase ss xs.
Proof.
  intros H. unfold filtfilt_lane, spec_zero_phase.
  pose proof (default_padlen_positive ss) as P.
  apply Nat.ltb_lt in P. rewrite P.
  f_equal.
  rewrite length_rev, !sosfilt_length, length_rev, sosfilt_length.
  rewrite even_ext_length by exact H. lia.
Qed.

Lemma spec_zero_phase_length ss xs :
  (default_padlen ss < List.length xs)%nat ->
  List.length (spec_zero_phase ss xs) = List.length xs.
Proof.
  intros H. unfold spec_zero_phase.
  rewrite length_firstn, length_skipn, length_rev, !sosfilt_length,
    length_rev, sosfilt_length, even_ext_length by exact H.
  lia.
Qed.

(** ** The refinement of the masked library result *)

Lemma zero_filled_values a : values (zero_filled a) = spec_zero_fill a.
Proof.
  unfold zero_filled, map_values, spec_zero_fill. simpl. f_equal.
  apply map_ext. now intros [|q].
Qed.

Lemma lane_length {A} (d : A) (x : ndarray A) axis k :
  List.length (lane d x axis k) = nth axis (shape x) 0%nat.
Proof. unfold lane. now rewrite length_map, length_seq. Qed.

(** Masking the library's result with [notnull] gives the array of the
    specification. *)
Lemma masked_filtered_is_spec ss a n rest :
  shape (values a) = n :: rest ->
  (default_padlen ss < n)%nat ->
  map (fun xc : pyfloat * bool => if snd xc then fst xc else NaN)
      (combine (data (values (lib_filtered ss a))) (data (values (null_mask a))))
  = data (values (spec_filter ss a)).
Proof.
  intros Hs Hn.
  unfold lib_filtered, null_mask, spec_filter, along_axis. simpl.
  rewrite length_map.
  rewrite (list_as_seq NaN (data (values a))) at 2.
  rewrite map_map, combine_map_same, map_map.
  apply map_ext_in. intros k Hk. simpl.
  apply in_seq in Hk.
  unfold spec_mask.
  change false with (isnan (Num 0)).
  rewrite map_nth.
  rewrite (nth_indep _ (Num 0) NaN) by lia.
  destruct (nth k (data (values a)) NaN) eqn:E; simpl; [reflexivity|].
  unfold spec_filtered_at.
  change (mk_ndarray (shape (values a))
            (map (fun x => if isnan x then Num 0 else x) (data (values a))))
    with (values (zero_filled a)).
  rewrite zero_filled_values.
  rewrite filtfilt_lane_even; [reflexivity|].
  rewrite lane_length. simpl. rewrite Hs. exact Hn.
Qed.

(** ** Running the statements of the function *)

Lemma two_nonzero : ~ 2 == 0.
Proof. discriminate. Qed.

Lemma nyquist_nonzero : ~ fs_value / 2 == 0.
Proof. discriminate. Qed.

Lemma normalized_cutoff_ok p w :
  ~ p == 0 ->
  normalized_cutoff p w = (w, inr (fs_value, nyquist_value, Wn p)).
Proof.
  intros Hp. unfold normalized_cutoff.
  rewrite (bind_ok _ _ _ _ _ (truediv_ok 1 _ w month_seconds_nonzero)).
  rewrite (bind_ok _ _ _ _ _ (truediv_ok _ 2 w two_nonzero)).
  rewrite (bind_ok _ _ _ _ _ (truediv_ok _ p w Hp)).
  rewrite (bind_ok _ _ _ _ _ (truediv_ok _ _ w nyquist_nonzero)).
  reflexivity.
Qed.

Lemma normalized_cutoff_zero p w :
  p == 0 -> normalized_cutoff p w = (w, inl ZeroDivisionError).
Proof.
  intros Hp. unfold normalized_cutoff.
  rewrite (bind_ok _ _ _ _ _ (truediv_ok 1 _ w month_seconds_nonzero)).
  rewrite (bind_ok _ _ _ _ _ (truediv_ok _ 2 w two_nonzero)).
  now rewrite (bind_raise _ _ _ _ _ (truediv_zero _ p w Hp)).
Qed.

(** *** The state *)

Lemma extend_extend w os ls os' ls' :
  extend_world (extend_world w os ls) os' ls'
  = extend_world w (os ++ os') (ls ++ ls').
Proof. unfold extend_world. simpl. now rewrite <- !app_assoc. Qed.

Lemma heap_length_extend w os ls :
  List.length (heap (extend_world w os ls))
  = (List.length (heap w) + List.length os)%nat.
Proof. unfold extend_world. simpl. apply length_app. Qed.

Lemma lookup_old w os ls d o :
  nth_error (heap w) d = Some o ->
  nth_error (heap (extend_world w os ls)) d = Some o.
Proof. intros H. unfold extend_world. simpl. now apply nth_error_old. Qed.

Lemma lookup_new w os ls k :
  nth_error (heap (extend_world w os ls)) (List.length (heap w) + k)
  = nth_error os k.
Proof. unfold extend_world. simpl. apply nth_error_alloc. Qed.

Lemma print_ok l w : print l w = (extend_world w [] [l], inr tt).
Proof. unfold print, extend_world. now rewrite app_nil_r. Qed.

Lemma alloc_ok o w :
  alloc o w = (extend_world w [o] [], inr (List.length (heap w))).
Proof. unfold alloc, extend_world. now rewrite app_nil_r. Qed.

Lemma load_float_ok w d a :
  nth_error (heap w) d = Some (FloatArray a) -> load_float d w = (w, inr a).
Proof. intros H. unfold load_float. now rewrite H. Qed.

Lemma load_float_fail w d :
  (forall a, nth_error (heap w) d <> Some (FloatArray a)) ->
  load_float d w = (w, inl (TypeError "not an array of floats")).
Proof.
  intros H. unfold load_float.
  destruct (nth_error (heap w) d) as [[a|b]|]; try reflexivity.
  now destruct (H a).
Qed.

Lemma load_bool_ok w d a :
  nth_error (heap w) d = Some (BoolArray a) -> load_bool d w = (w, inr a).
Proof. intros H. unfold load_bool. now rewrite H. Qed.

(** *** The statements *)

Lemma print_cutoff_ok p w :
  ~ p == 0 ->
  print_cutoff nyquist_value (Wn p) w
  = (extend_world w [] [cutoff_line p], inr tt).
Proof.
  intros Hp. unfold print_cutoff.
  rewrite (bind_ok _ _ _ _ _
             (truediv_ok 1 _ w (Wn_times_nyquist_nonzero p Hp))).
  rewrite (bind_ok _ _ _ _ _ (truediv_ok _ _ w month_seconds_nonzero)).
  apply print_ok.
Qed.

Lemma fillna_ok w d a :
  nth_error (heap w) d = Some (FloatArray a) ->
  fillna d 0 w
  = (extend_world w [FloatArray (zero_filled a)] [], inr (List.length (heap w))).
Proof.
  intros H. unfold fillna.
  rewrite (bind_ok _ _ _ _ _ (load_float_ok w d a H)).
  apply alloc_ok.
Qed.

Lemma fillna_fail w d v :
  (forall a, nth_error (heap w) d <> Some (FloatArray a)) ->
  fillna d v w = (w, inl (TypeError "not an array of floats")).
Proof.
  intros H. unfold fillna.
  now rewrite (bind_raise _ _ _ _ _ (load_float_fail w d H)).
Qed.

Lemma notnull_ok w d a :
  nth_error (heap w) d = Some (FloatArray a) ->
  notnull d w
  = (extend_world w [BoolArray (null_mask a)] [], inr (List.length (heap w))).
Proof.
  intros H. unfold notnull.
  rewrite (bind_ok _ _ _ _ _ (load_float_ok w d a H)).
  apply alloc_ok.
Qed.

Lemma where_ok w d cond a c :
  nth_error (heap w) d = Some (FloatArray a) ->
  nth_error (heap w) cond = Some (BoolArray c) ->
  where_ d cond w
  = (extend_world w
       [FloatArray
          (mk_DataArray (dims a) (coords a)
             (mk_ndarray (shape (values a))
                (map (fun xc : pyfloat * bool => if snd xc then fst xc else NaN)
                     (combine (data (values a)) (data (values c))))))] [],
     inr (List.length (heap w))).
Proof.
  intros Ha Hc. unfold where_.
  rewrite (bind_ok _ _ _ _ _ (load_float_ok w d a Ha)).
  rewrite (bind_ok _ _ _ _ _ (load_bool_ok w cond c Hc)).
  apply alloc_ok.
Qed.

Lemma shape_eqb_refl s : shape_eqb s s = true.
Proof. unfold shape_eqb. now destruct (list_eq_dec Nat.eq_dec s s). Qed.

Lemma sosfiltfilt_even_ok ss (x : ndarray pyfloat) n rest :
  shape x = n :: rest ->
  (default_padlen ss < n)%nat ->
  sosfiltfilt ss x (mk_kwargs (Some pad_even) 0)
  = inr (along_axis
           (fun l => filtfilt_lane ss (even_ext l (default_padlen ss))
                       (default_padlen ss)) x 0).
Proof.
  intros Hs Hn. unfold sosfiltfilt. rewrite Hs. simpl.
  apply Nat.leb_gt in Hn. now rewrite Hn.
Qed.

Lemma sosfiltfilt_no_axis ss (x : ndarray pyfloat) kw :
  shape x = [] -> sosfiltfilt ss x kw = inl no_axis_error.
Proof. intros Hs. unfold sosfiltfilt. now rewrite Hs. Qed.

Lemma sosfiltfilt_short ss (x : ndarray pyfloat) n rest :
  shape x = n :: rest ->
  (n <= default_padlen ss)%nat ->
  sosfiltfilt ss x (mk_kwargs (Some pad_even) 0) = inl short_axis_error.
Proof.
  intros Hs Hn. unfold sosfiltfilt. rewrite Hs. simpl.
  apply Nat.leb_le in Hn. now rewrite Hn.
Qed.

(** [apply_ufunc] on the zero-filled copy of [a]. *)
Lemma apply_sosfiltfilt_ok ss w d a n rest :
  nth_error (heap w) d = Some (FloatArray (zero_filled a)) ->
  shape (values a) = n :: rest ->
  (default_padlen ss < n)%nat ->
  apply_ufunc sosfiltfilt ss d (mk_kwargs (Some pad_even) 0) w
  = (extend_world w [FloatArray (lib_filtered ss a)] [],
     inr (List.length (heap w))).
Proof.
  intros H Hs Hn. unfold apply_ufunc.
  rewrite (bind_ok _ _ _ _ _ (load_float_ok w d _ H)).
  unfold lift at 1.
  erewrite bind_ok
    by (rewrite (sosfiltfilt_even_ok ss (values (zero_filled a)) n rest Hs Hn);
        reflexivity).
  unfold along_axis at 1. simpl shape. rewrite shape_eqb_refl.
  apply alloc_ok.
Qed.

Lemma apply_sosfiltfilt_raise ss w d a e :
  nth_error (heap w) d = Some (FloatArray (zero_filled a)) ->
  sosfiltfilt ss (values (zero_filled a)) (mk_kwargs (Some pad_even) 0) = inl e ->
  apply_ufunc sosfiltfilt ss d (mk_kwargs (Some pad_even) 0) w = (w, inl e).
Proof.
  intros H E. unfold apply_ufunc.
  rewrite (bind_ok _ _ _ _ _ (load_float_ok w d _ H)).
  unfold lift at 1. rewrite E. reflexivity.
Qed.

Section Correctness.

Variable design : nat -> btype -> Q -> forall o : output, coeffs o.

Lemma butter_ok p o :
  2 < p -> butter design 4 (Wn p) lowpass o = inr (design 4%nat lowpass (Wn p) o).
Proof. intros Hp. unfold butter. now rewrite cutoff_accepted. Qed.

Lemma butter_rejects p o :
  ~ p == 0 -> p <= 2 ->
  butter design 4 (Wn p) lowpass o = inl critical_frequency_error.
Proof. intros N Hp. unfold butter. now rewrite cutoff_rejected. Qed.

(** Lines 14 to 18 on an array with a long enough axis 0. *)
Lemma filter_and_mask_ok ss w dat a n rest :
  nth_error (heap w) dat = Some (FloatArray a) ->
  shape (values a) = n :: rest ->
  (default_padlen ss < n)%nat ->
  (filled <- fillna dat 0 ;;
   filtered <- apply_ufunc sosfiltfilt ss filled
                 (mk_kwargs (Some pad_even) 0) ;;
   mask <- notnull dat ;;
   dat_out <- where_ filtered mask ;;
   print [PStr "Function call completed"] ;;;
   ret dat_out) w
  = (extend_world w
       [FloatArray (zero_filled a); FloatArray (lib_filtered ss a);
        BoolArray (null_mask a); FloatArray (spec_filter ss a)]
       [completed_line],
     inr (List.length (heap w) + 3)%nat).
Proof.
  intros L Hs Hn.
  rewrite (bind_ok _ _ _ _ _ (fillna_ok w dat a L)).
  set (w1 := extend_world w [FloatArray (zero_filled a)] []).
  assert (L1 : nth_error (heap w1) (List.length (heap w))
               = Some (FloatArray (zero_filled a))).
  { rewrite <- (Nat.add_0_r (List.length (heap w))).
    unfold w1. now rewrite lookup_new. }
  rewrite (bind_ok _ _ _ _ _ (apply_sosfiltfilt_ok ss w1 _ a n rest L1 Hs Hn)).
  unfold w1 at 1 2. rewrite extend_extend, heap_length_extend. simpl.
  set (w2 := extend_world w _ []).
  rewrite (bind_ok _ _ _ _ _ (notnull_ok w2 dat a (lookup_old w _ _ _ _ L))).
  unfold w2 at 1 2. rewrite extend_extend, heap_length_extend. simpl.
  set (w3 := extend_world w _ []).
  assert (L3 : nth_error (heap w3) (List.length (heap w) + 1)
               = Some (FloatArray (lib_filtered ss a)))
    by (unfold w3; now rewrite lookup_new).
  assert (M3 : nth_error (heap w3) (List.length (heap w) + 2)
               = Some (BoolArray (null_mask a)))
    by (unfold w3; now rewrite lookup_new).
  rewrite (bind_ok _ _ _ _ _ (where_ok w3 _ _ _ _ L3 M3)).
  rewrite (masked_filtered_is_spec ss a n rest Hs Hn).
  unfold w3 at 1 2. rewrite extend_extend, heap_length_extend. simpl.
  rewrite (bind_ok _ _ _ _ _ (print_ok _ _)).
  rewrite extend_extend. simpl. unfold ret.
  reflexivity.
Qed.

Lemma filter_and_mask_not_an_array ss w dat :
  (forall a, nth_error (heap w) dat <> Some (FloatArray a)) ->
  (filled <- fillna dat 0 ;;
   filtered <- apply_ufunc sosfiltfilt ss filled
                 (mk_kwargs (Some pad_even) 0) ;;
   mask <- notnull dat ;;
   dat_out <- where_ filtered mask ;;
   print [PStr "Function call completed"] ;;;
   ret dat_out) w
  = (w, inl (TypeError "not an array of floats")).
Proof.
  intros F. now rewrite (bind_raise _ _ _ _ _ (fillna_fail w dat 0 F)).
Qed.

Lemma filter_and_mask_raise ss w dat a e :
  nth_error (heap w) dat = Some (FloatArray a) ->
  sosfiltfilt ss (values (zero_filled a)) (mk_kwargs (Some pad_even) 0)
  = inl e ->
  (filled <- fillna dat 0 ;;
   filtered <- apply_ufunc sosfiltfilt ss filled
                 (mk_kwargs (Some pad_even) 0) ;;
   mask <- notnull dat ;;
   dat_out <- where_ filtered mask ;;
   print [PStr "Function call completed"] ;;;
   ret dat_out) w
  = (extend_world w [FloatArray (zero_filled a)] [], inl e).
Proof.
  intros L E.
  rewrite (bind_ok _ _ _ _ _ (fillna_ok w dat a L)).
  set (w1 := extend_world w [FloatArray (zero_filled a)] []).
  assert (L1 : nth_error (heap w1) (List.length (heap w))
               = Some (FloatArray (zero_filled a))).
  { rewrite <- (Nat.add_0_r (List.length (heap w))).
    unfold w1. now rewrite lookup_new. }
  now rewrite (bind_raise _ _ _ _ _ (apply_sosfiltfilt_raise ss w1 _ a e L1 E)).
Qed.

(** Every call ends in one of the six outcomes. *)
Lemma lpf_modata_outcome w dat p :
  lpf_outcome design w dat p (lpf_modata design dat p w).
Proof.
  unfold lpf_modata.
  destruct (Qeq_dec p 0) as [Z|N].
  { rewrite (bind_raise _ _ _ _ _ (normalized_cutoff_zero p w Z)).
    now constructor. }
  rewrite (bind_ok _ _ _ _ _ (normalized_cutoff_ok p w N)).
  cbv beta iota.
  rewrite (bind_ok _ _ _ _ _ (print_cutoff_ok p w N)).
  unfold lift.
  destruct (Qlt_le_dec 2 p) as [V|I].
  2:{ erewrite bind_raise
        by (rewrite (butter_rejects p sos N I); reflexivity).
      now constructor. }
  erewrite bind_ok by (rewrite (butter_ok p sos V); reflexivity).
  erewrite bind_ok by (rewrite (butter_ok p ba V); reflexivity).
  destruct (design 4%nat lowpass (Wn p) ba) as [filtb filta].
  fold (filtsos_of design p).
  set (w1 := extend_world w [] [cutoff_line p]).
  destruct (nth_error (heap w) dat) as [o|] eqn:L.
  2:{ rewrite filter_and_mask_not_an_array.
      - apply not_an_array; [exact V|]. intros a. rewrite L. discriminate.
      - intros a. unfold w1, extend_world. simpl.
        rewrite app_nil_r, L. discriminate. }
  destruct o as [a|b].
  2:{ rewrite filter_and_mask_not_an_array.
      - apply not_an_array; [exact V|]. intros a. rewrite L. discriminate.
      - intros a. unfold w1, extend_world. simpl.
        rewrite app_nil_r, L. discriminate. }
  assert (L1 : nth_error (heap w1) dat = Some (FloatArray a))
    by (unfold w1; now apply lookup_old).
  assert (H1 : List.length (heap w1) = List.length (heap w))
    by (unfold w1; rewrite heap_length_extend; cbn [List.length]; lia).
  destruct (shape (values a)) as [|n rest] eqn:S.
  { rewrite (filter_and_mask_raise _ w1 dat a no_axis_error L1
               (sosfiltfilt_no_axis _ (values (zero_filled a)) _ S)).
    unfold w1. rewrite extend_extend. cbn [app].
    now apply no_axis. }
  destruct (le_lt_dec n (default_padlen (filtsos_of design p))) as [Sh|Lg].
  { rewrite (filter_and_mask_raise _ w1 dat a short_axis_error L1
               (sosfiltfilt_short _ (values (zero_filled a)) n rest S Sh)).
    unfold w1. rewrite extend_extend. cbn [app].
    now apply short_axis with (n := n) (rest := rest). }
  rewrite (filter_and_mask_ok _ w1 dat a n rest L1 S Lg).
  rewrite H1. unfold w1. rewrite extend_extend. cbn [app].
  now apply filtered with (n := n) (rest := rest).
Qed.

End Correctness.

(** ** No missing value comes out of the filter on its own *)








Lemma Forall_firstn {A} (P : A -> Prop) n : forall l,
  Forall P l -> Forall P (firstn n l).
Proof.
  induction n as [|n IH]; intros l H; [constructor|].
  destruct H; simpl; [constructor|]. constructor; [assumption|now apply IH].
Qed.

Lemma Forall_skipn {A} (P : A -> Prop) n : forall l,
  Forall P l -> Forall P (skipn n l).
Proof.
  induction n as [|n IH]; intros l H; [exact H|].
  destruct H; simpl; [constructor|]. now apply IH.
Qed.

Lemma Forall_tl {A} (P : A -> Prop) l : Forall P l -> Forall P (tl l).
Proof. intros H. destruct H; [constructor|assumption]. Qed.





(** ** Positions along axis 0 *)

Lemma nth_map_in_range {A B} (f : A -> B) (l : list A) k d d' :
  (k < List.length l)%nat -> nth k (map f l) d = f (nth k l d').
Proof.
  intros H. rewrite (nth_indep _ d (f d')) by now rewrite length_map.
  apply map_nth.
Qed.

Lemma axis0_position n rest k :
  (k < n * prod_list rest)%nat ->
  (axis_index (n :: rest) 0 k < n)%nat
  /\ forall t, (t < n)%nat ->
       (k - axis_index (n :: rest) 0 k * stride (n :: rest) 0
          + t * stride (n :: rest) 0 < n * prod_list rest)%nat.
Proof.
  intros Hk. unfold axis_index, stride. cbn [skipn nth].
  set (st := prod_list rest) in *.
  assert (Hst : (0 < st)%nat) by (destruct st; [lia|lia]).
  assert (Hq : (k / st < n)%nat)
    by (apply Nat.Div0.div_lt_upper_bound; lia).
  rewrite (Nat.mod_small _ _ Hq).
  split; [exact Hq|].
  intros t Ht.
  pose proof (Nat.div_mod_eq k st) as D.
  pose proof (Nat.mod_upper_bound k st ltac:(lia)) as M.
  assert (E : (k - k / st * st = k mod st)%nat) by lia.
  rewrite E. nia.
Qed.



(** The elements of the array of the specification. *)
Lemma spec_filter_nth_error ss a k x :
  nth_error (data (values a)) k = Some x ->
  nth_error (data (values (spec_filter ss a))) k
  = Some (if isnan x then NaN else spec_filtered_at ss a k).
Proof.
  intros H.
  assert (Hk : (k < List.length (data (values a)))%nat)
    by (apply nth_error_Some; congruence).
  unfold spec_filter. cbn [values data].
  rewrite nth_error_map.
  rewrite (nth_error_nth' _ 0%nat) by now rewrite length_seq.
  rewrite seq_nth by exact Hk. cbn [option_map Nat.add].
  unfold spec_mask.
  change false with (isnan (Num 0)). rewrite map_nth.
  now rewrite (nth_error_nth _ _ (Num 0) H).
Qed.

Lemma spec_filter_length ss a :
  List.length (data (values (spec_filter ss a)))
  = List.length (data (values a)).
Proof. unfold spec_filter. cbn [values data]. now rewrite length_map, length_seq. Qed.

(** ** Successful calls *)

Section Calls.

Variable design : nat -> btype -> Q -> forall o : output, coeffs o.

(** The state and the result of a call on a valid period and an array
    whose axis 0 is long enough. *)
Lemma lpf_modata_success w dat a p n rest :
  nth_error (heap w) dat = Some (FloatArray a) ->
  2 < p ->
  shape (values a) = n :: rest ->
  (default_padlen (filtsos_of design p) < n)%nat ->
  lpf_modata design dat p w
  = (extend_world w
       [FloatArray (zero_filled a);
        FloatArray (lib_filtered (filtsos_of design p) a);
        BoolArray (null_mask a);
        FloatArray (spec_filter (filtsos_of design p) a)]
       [cutoff_line p; completed_line],
     inr (List.length (heap w) + 3)%nat).
Proof.
  intros L V S Lg.
  destruct (lpf_modata_outcome design w dat p)
    as [Z|N I|V' F|a' V' L' S'|a' n' rest' V' L' S' Sh|a' n' rest' V' L' S' Lg'].
  - exfalso. rewrite Z in V. discriminate V.
  - exfalso. apply (Qlt_not_le _ _ V I).
  - exfalso. apply (F a L).
  - exfalso. congruence.
  - exfalso. assert (a' = a) by congruence. subst a'.
    assert (n' = n) by congruence. lia.
  - assert (a' = a) by congruence. now subst a'.
Qed.

(** A call that returns was such a call. *)
Lemma lpf_modata_returns w dat p w' out :
  lpf_modata design dat p w = (w', inr out) ->
  exists a n rest,
    nth_error (heap w) dat = Some (FloatArray a)
    /\ 2 < p
    /\ shape (values a) = n :: rest
    /\ (default_padlen (filtsos_of design p) < n)%nat.
Proof.
  intros H.
  destruct (lpf_modata_outcome design w dat p)
    as [Z|N I|V' F|a' V' L' S'|a' n' rest' V' L' S' Sh|a' n' rest' V' L' S' Lg'];
    try discriminate H.
  now exists a', n', rest'.
Qed.

(** The object at the returned location. *)
Lemma lookup_result w a ss ls :
  nth_error
    (heap (extend_world w
             [FloatArray (zero_filled a); FloatArray (lib_filtered ss a);
              BoolArray (null_mask a); FloatArray (spec_filter ss a)] ls))
    (List.length (heap w) + 3)
  = Some (FloatArray (spec_filter ss a)).
Proof. now rewrite lookup_new. Qed.

End Calls.

(** * The properties of the specification *)

(** C5.  For every period [p > 0], lines 7 to 10 run without an exception
    and leave [fs = 1/(30.41667*24*3600)], [nyquist = fs/2] and
    [cutoff = (fs/p)/nyquist]; in exact arithmetic the cutoff equals [2/p],
    and it lies strictly between 0 and 1 exactly when [p > 2]. *)
Theorem normalized_cutoff_is_two_over_period (p : Q) (w : world) :
  0 < p ->
  exists fs nyq cutoff,
    normalized_cutoff p w = (w, inr (fs, nyq, cutoff))
    /\ fs == 1 / (30.41667 * 24 * 3600)
    /\ nyq == fs / 2
    /\ cutoff == fs / p / nyq
    /\ cutoff == 2 / p
    /\ (0 < cutoff /\ cutoff < 1 <-> 2 < p).
Proof.
  intros P.
  assert (N : ~ p == 0) by (intros E; rewrite E in P; discriminate P).
  exists fs_value, nyquist_value, (Wn p).
  split; [now apply normalized_cutoff_ok|].
  split; [reflexivity|]. split; [reflexivity|]. split; [reflexivity|].
  split; [now apply Wn_exact|].
  split.
  - intros [_ H]. destruct (Qlt_le_dec 2 p) as [V|I]; [exact V|].
    exfalso. apply (Qlt_not_le _ _ H). now apply Wn_at_least_one.
  - intros V. split; [now apply Wn_positive|now apply Wn_below_one].
Qed.

Lemma normalized_cutoff_is_two_over_period_witness :
  exists fs nyq cutoff,
    normalized_cutoff 120 sample_world = (sample_world, inr (fs, nyq, cutoff))
    /\ fs == 1 / (30.41667 * 24 * 3600)
    /\ nyq == fs / 2
    /\ cutoff == fs / 120 / nyq
    /\ cutoff == 2 / 120
    /\ (0 < cutoff /\ cutoff < 1 <-> 2 < 120).
Proof.
  apply (normalized_cutoff_is_two_over_period 120 sample_world).
  reflexivity.
Defined.

Section Specification.

Variable design : nat -> btype -> Q -> forall o : output, coeffs o.

(** C2, amended.  For every array and every period [p <= 2] other than
    zero, the call raises the exception of the filter design for a
    critical frequency outside (0, 1); it does so after printing the
    cutoff and before any array is created.  For the period zero the
    division of line 9 raises, before anything is printed or created. *)
Theorem invalid_period_is_rejected (w : world) (dat : loc) (p : Q) :
  p <= 2 ->
  (~ p == 0 ->
   (exists e, snd (lpf_modata design dat p w) = inl e /\ InvalidFilterSpec e)
   /\ heap (fst (lpf_modata design dat p w)) = heap w
   /\ stdout (fst (lpf_modata design dat p w)) = stdout w ++ [cutoff_line p])
  /\ (p == 0 -> lpf_modata design dat p w = (w, inl ZeroDivisionError)).
Proof.
  intros I.
  destruct (lpf_modata_outcome design w dat p)
    as [Z|N' I'|V F|a V L S|a n rest V L S Sh|a n rest V L S Lg];
    try (exfalso; apply (Qlt_not_le _ _ V I)).
  - split; [contradiction|reflexivity].
  - split; [|contradiction]. intros _.
    split; [exists critical_frequency_error; now split|].
    unfold extend_world. cbn [fst heap stdout]. now rewrite app_nil_r.
Qed.






(** C10.  For every state, array and period, the function without the
    transfer-function design of line 13 ends in the same state with the
    same result or the same exception. *)
Theorem transfer_function_design_is_dead
  (w : world) (dat : loc) (p : Q) :
  lpf_modata_sos_only design dat p w = lpf_modata design dat p w.
Proof.
  unfold lpf_modata_sos_only, lpf_modata, bind.
  destruct (normalized_cutoff p w) as [w1 [e|[[fs nyquist] cutoff]]];
    [reflexivity|].
  destruct (print_cutoff nyquist cutoff w1) as [w2 [e|u]]; [reflexivity|].
  unfold lift, butter.
  destruct (Qle_bool cutoff 0 || Qle_bool 1 cutoff); [reflexivity|].
  destruct (design 4%nat lowpass cutoff ba) as [filtb filta].
  reflexivity.
Qed.

(** C8, amended.  For every state, array and period, a call leaves every
    object of the heap as it was, the input among them; an array that it
    returns is at a location that was not in use; and its only other
    effect is on the standard output, where it prints the cutoff line,
    whose number is the period recovered from the cutoff, and, when it
    returns, the completion notice after it. *)
Theorem call_leaves_the_heap_and_prints_two_lines
  (w : world) (dat : loc) (p : Q) :
  (forall l o,
      nth_error (heap w) l = Some o ->
      nth_error (heap (fst (lpf_modata design dat p w))) l = Some o)
  /\ (forall out,
         snd (lpf_modata design dat p w) = inr out ->
         nth_error (heap w) out = None
         /\ (exists o,
                nth_error (heap (fst (lpf_modata design dat p w))) out
                = Some (FloatArray o))
         /\ stdout (fst (lpf_modata design dat p w))
            = stdout w ++ [cutoff_line p; completed_line])
  /\ ((exists e, snd (lpf_modata design dat p w) = inl e) ->
      stdout (fst (lpf_modata design dat p w)) = stdout w
      \/ stdout (fst (lpf_modata design dat p w))
         = stdout w ++ [cutoff_line p])
  /\ (~ p == 0 -> recovered_period p == p).
Proof.
  split; [|split; [|split]].
  - intros l o H.
    destruct (lpf_modata_outcome design w dat p); cbn [fst];
      first [exact H | now apply lookup_old].
  - intros out H.
    destruct (lpf_modata_outcome design w dat p); try discriminate H.
    cbn [snd] in H. injection H as <-. cbn [fst].
    split; [apply nth_error_None; lia|].
    split; [eexists; apply lookup_result|reflexivity].
  - intros [e H].
    destruct (lpf_modata_outcome design w dat p); try discriminate H;
      cbn [fst]; first [now left | now right].
  - apply recovered_period_exact.
Qed.

End Specification.

(** * The properties on the sample inputs *)

Lemma invalid_period_is_rejected_witness :
  (exists e,
      snd (lpf_modata sample_design 0%nat 2 sample_world) = inl e
      /\ InvalidFilterSpec e)
  /\ heap (fst (lpf_modata sample_design 0%nat 2 sample_world))
     = heap sample_world
  /\ stdout (fst (lpf_modata sample_design 0%nat 2 sample_world))
     = stdout sample_world ++ [cutoff_line 2].
Proof.
  assert (I : 2 <= 2) by discriminate.
  apply (proj1 (invalid_period_is_rejected sample_design sample_world
                  0%nat 2 I)).
  discriminate.
Defined.

(** C2 as stated fails at period 0: line 9 divides by the period, and the
    exception is the one of the division, not the one of the design. *)
Lemma zero_period_raises_zero_division :
  0 <= 2
  /\ snd (lpf_modata sample_design 0%nat 0 sample_world)
     = inl ZeroDivisionError
  /\ ~ InvalidFilterSpec ZeroDivisionError.
Proof.
  split; [discriminate|]. split; [reflexivity|].
  unfold InvalidFilterSpec. discriminate.
Qed.


(** An array without any axis is rejected in the same way. *)
Example scalar_array_has_no_axis :
  snd (lpf_modata sample_design 3%nat 120 sample_world) = inl no_axis_error.
Proof. vm_compute. reflexivity. Qed.






(** The even extension mirrors the samples; the odd one, which the function
    does not use, reflects them through the end points. *)
Example even_and_odd_extension :
  even_ext [Num 1; Num 2; Num 4] 2
  = [Num 4; Num 2; Num 1; Num 2; Num 4; Num 2; Num 1]
  /\ odd_ext [Num 1; Num 2; Num 4] 2
     = [Num (-2); Num 0; Num 1; Num 2; Num 4; Num 6; Num 7].
Proof. split; reflexivity. Qed.

(** With the odd extension the library call gives another result on the
    zero-filled sample series. *)
Example odd_padding_gives_another_result :
  sosfiltfilt (filtsos_of sample_design 120)
    (values (zero_filled sample_series)) (mk_kwargs (Some pad_odd) 0)
  <> sosfiltfilt (filtsos_of sample_design 120)
       (values (zero_filled sample_series)) (mk_kwargs (Some pad_even) 0).
Proof. vm_compute. discriminate. Qed.

(** C8 as stated fails on every call that returns: after the cutoff line,
    line 16 prints a second line. *)
Lemma completion_notice_is_a_second_line :
  snd (lpf_modata sample_design 0%nat 120 sample_world) = inr 8%nat
  /\ stdout (fst (lpf_modata sample_design 0%nat 120 sample_world))
     = stdout sample_world
       ++ [cutoff_line 120; [PStr "Function call completed"]]
  /\ ~ (exists line,
           stdout (fst (lpf_modata sample_design 0%nat 120 sample_world))
           = stdout sample_world ++ [line]).
Proof.
  assert (E : stdout (fst (lpf_modata sample_design 0%nat 120 sample_world))
              = stdout sample_world
                ++ [cutoff_line 120; [PStr "Function call completed"]])
    by (vm_compute; reflexivity).
  split; [vm_compute; reflexivity|]. split; [exact E|].
  intros [line H]. rewrite E in H. apply app_inv_head in H. discriminate H.
Qed.

(** * Further properties of the code *)

(** ** The array that a call returns *)

Lemma result_of_success design w dat a p n rest :
  nth_error (heap w) dat = Some (FloatArray a) ->
  2 < p ->
  shape (values a) = n :: rest ->
  (default_padlen (filtsos_of design p) < n)%nat ->
  result_of design w dat p = Some (spec_filter (filtsos_of design p) a).
Proof.
  intros L V S Lg. unfold result_of.
  rewrite (lpf_modata_success design w dat a p n rest L V S Lg).
  now rewrite lookup_result.
Qed.

Lemma result_of_inv design w dat p o :
  result_of design w dat p = Some o ->
  exists a n rest,
    nth_error (heap w) dat = Some (FloatArray a)
    /\ 2 < p
    /\ shape (values a) = n :: rest
    /\ (default_padlen (filtsos_of design p) < n)%nat
    /\ o = spec_filter (filtsos_of design p) a.
Proof.
  intros H. unfold result_of in H.
  destruct (lpf_modata design dat p w) as [w' [e|out]] eqn:R; [discriminate H|].
  destruct (lpf_modata_returns design w dat p w' out R)
    as (a & n & rest & L & V & S & Lg).
  exists a, n, rest. repeat split; try assumption.
  rewrite (lpf_modata_success design w dat a p n rest L V S Lg) in R.
  injection R as <- <-. rewrite lookup_result in H. congruence.
Qed.





(** ** The length that the padding needs *)




(** ** Calls on the arrays that a call leaves *)






(** ** The series along axis 0 *)

(** An element is on the series through its position, at its time index. *)
Lemma element_on_own_lane (a : DataArray pyfloat) n rest k :
  shape (values a) = n :: rest ->
  wf_ndarray (values a) ->
  (k < List.length (data (values a)))%nat ->
  nth (axis_index (shape (values a)) 0 k) (lane NaN (values a) 0 k) NaN
  = nth k (data (values a)) NaN.
Proof.
  intros S Hwf Hk. unfold wf_ndarray in Hwf. rewrite S in Hwf.
  cbn [prod_list fold_right] in Hwf. fold (prod_list rest) in Hwf.
  rewrite Hwf in Hk.
  destruct (axis0_position n rest k Hk) as [Hi _].
  unfold lane. rewrite S. cbn [nth].
  rewrite nth_map_seq by exact Hi. f_equal.
  unfold axis_index, stride in *. cbn [skipn nth] in *.
  set (st := prod_list rest) in *.
  assert (Hst : (0 < st)%nat) by (destruct st; lia).
  assert (Hq : (k / st < n)%nat)
    by (apply Nat.Div0.div_lt_upper_bound; lia).
  rewrite (Nat.mod_small _ _ Hq).
  pose proof (Nat.Div0.mul_div_le k st). lia.
Qed.

(** The series of the zero-filled array is the zero-filled series. *)
Lemma lane_zero_fill (a : DataArray pyfloat) n rest k :
  shape (values a) = n :: rest ->
  wf_ndarray (values a) ->
  (k < List.length (data (values a)))%nat ->
  lane NaN (spec_zero_fill a) 0 k
  = map (fun x => match x with NaN => Num 0 | Num q => Num q end)
        (lane NaN (values a) 0 k).
Proof.
  intros S Hwf Hk. unfold wf_ndarray in Hwf. rewrite S in Hwf.
  cbn [prod_list fold_right] in Hwf. fold (prod_list rest) in Hwf.
  pose proof Hk as Hk'. rewrite Hwf in Hk'.
  destruct (axis0_position n rest k Hk') as [_ Hidx].
  unfold lane, spec_zero_fill. cbn [shape data]. rewrite S.
  rewrite map_map. apply map_ext_in. intros t Ht.
  apply in_seq in Ht. cbn [nth] in Ht.
  rewrite (nth_map_in_range _ _ _ NaN NaN); [reflexivity|].
  rewrite Hwf. apply Hidx. lia.
Qed.

(** X6.  The series along axis 0 are filtered independently: when two
    well-formed arrays of the same shape hold the same series through a
    position, the results of the calls on them hold the same element at
    that position, whatever the other series are. *)
Theorem series_are_filtered_independently
  (design : nat -> btype -> Q -> forall o : output, coeffs o)
  (w : world) (dat dat' : loc) (a a' o o' : DataArray pyfloat) (p : Q)
  (k : nat) :
  nth_error (heap w) dat = Some (FloatArray a) ->
  nth_error (heap w) dat' = Some (FloatArray a') ->
  wf_ndarray (values a) ->
  wf_ndarray (values a') ->
  shape (values a) = shape (values a') ->
  result_of design w dat p = Some o ->
  result_of design w dat' p = Some o' ->
  (k < List.length (data (values a)))%nat ->
  lane NaN (values a) 0 k = lane NaN (values a') 0 k ->
  nth_error (data (values o)) k = nth_error (data (values o')) k.
Proof.
  intros L L' Hwf Hwf' Sh R R' Hk Hl.
  destruct (result_of_inv design w dat p o R)
    as (b & n & rest & Lb & V & S & Lg & ->).
  assert (b = a) by congruence. subst b.
  destruct (result_of_inv design w dat' p o' R')
    as (b & n' & rest' & Lb' & _ & S' & _ & ->).
  assert (b = a') by congruence. subst b.
  assert (Hk' : (k < List.length (data (values a')))%nat).
  { unfold wf_ndarray in *. rewrite Hwf', <- Sh, <- Hwf. exact Hk. }
  assert (S2 : shape (values a') = n :: rest) by congruence.
  pose proof (element_on_own_lane a n rest k S Hwf Hk) as E.
  pose proof (element_on_own_lane a' n rest k S2 Hwf' Hk') as E'.
  rewrite <- Sh, <- Hl, E in E'.
  rewrite (spec_filter_nth_error _ a k _ (nth_error_nth' _ NaN Hk)).
  rewrite (spec_filter_nth_error _ a' k _ (nth_error_nth' _ NaN Hk')).
  rewrite E'. f_equal.
  destruct (isnan (nth k (data (values a')) NaN)); [reflexivity|].
  unfold spec_filtered_at.
  rewrite (lane_zero_fill a n rest k S Hwf Hk),
    (lane_zero_fill a' n rest k S2 Hwf' Hk').
  now rewrite Hl, Sh.
Qed.

Lemma series_are_filtered_independently_witness :
  nth_error
    (data (values (spec_filter (filtsos_of sample_design 120) sample_grid))) 4
  = nth_error
      (data (values (spec_filter (filtsos_of sample_design 120) other_grid))) 4.
Proof.
  apply (series_are_filtered_independently sample_design second_world
           1%nat 6%nat sample_grid other_grid _ _ 120 4%nat).
  - reflexivity.
  - reflexivity.
  - reflexivity.
  - reflexivity.
  - reflexivity.
  - vm_compute. reflexivity.
  - vm_compute. reflexivity.
  - vm_compute. repeat constructor.
  - vm_compute. reflexivity.
Defined.

(** ** The steady state of the filter *)

Lemma feq_num_compat x u v : feq x (Num u) -> u == v -> feq x (Num v).
Proof.
  destruct x as [|q]; cbn [feq]; [tauto|]. intros H E. now rewrite H.
Qed.

Lemma feq_fadd_num x y u v :
  feq x (Num u) -> feq y (Num v) -> feq (fadd x y) (Num (u + v)).
Proof.
  destruct x as [|q], y as [|r]; cbn [feq fadd fsub]; try tauto.
  intros H H0. now rewrite Qred_correct, H, H0.
Qed.

Lemma feq_fsub_num x y u v :
  feq x (Num u) -> feq y (Num v) -> feq (fsub x y) (Num (u - v)).
Proof.
  destruct x as [|q], y as [|r]; cbn [feq fadd fsub]; try tauto.
  intros H H0. now rewrite Qred_correct, H, H0.
Qed.

Lemma feq_fscale_num c x u : feq x (Num u) -> feq (fscale c x) (Num (c * u)).
Proof.
  destruct x as [|q]; cbn [feq fscale fmul]; [tauto|].
  intros H. now rewrite Qred_correct, H.
Qed.

Lemma steady_biquad_step s x z v :
  regular s ->
  feq x (Num v) ->
  feq (fst z) (Num (v * fst (lfilter_zi s))) ->
  feq (snd z) (Num (v * snd (lfilter_zi s))) ->
  feq (fst (biquad_step s x z)) (Num (dc_gain s * v))
  /\ feq (fst (snd (biquad_step s x z))) (Num (v * fst (lfilter_zi s)))
  /\ feq (snd (snd (biquad_step s x z))) (Num (v * snd (lfilter_zi s))).
Proof.
  intros D Hx H0 H1. unfold regular in D.
  unfold biquad_step. cbn [fst snd].
  assert (Hy : feq (fadd (fscale (b0 s) x) (fst z)) (Num (dc_gain s * v))).
  { apply feq_num_compat with (u := b0 s * v + v * fst (lfilter_zi s)).
    - apply feq_fadd_num; [now apply feq_fscale_num|exact H0].
    - unfold dc_gain, lfilter_zi. cbn [fst]. field. exact D. }
  split; [exact Hy|]. split.
  - apply feq_num_compat
      with (u := b1 s * v - a1 s * (dc_gain s * v) + v * snd (lfilter_zi s)).
    + apply feq_fadd_num; [|exact H1].
      apply feq_fsub_num; now apply feq_fscale_num.
    + unfold dc_gain, lfilter_zi. cbn [fst snd]. field. exact D.
  - apply feq_num_compat with (u := b2 s * v - a2 s * (dc_gain s * v)).
    + apply feq_fsub_num; now apply feq_fscale_num.
    + unfold dc_gain, lfilter_zi. cbn [fst snd]. field. exact D.
Qed.

Lemma steady_compat ss : forall zs v v',
  v == v' -> steady ss zs v -> steady ss zs v'.
Proof.
  induction ss as [|s ss IH]; intros zs v v' E H;
    destruct zs as [|z zs]; try exact H.
  cbn [steady] in *. destruct H as (H0 & H1 & H).
  split; [|split].
  - apply (feq_num_compat _ _ _ H0). now rewrite E.
  - apply (feq_num_compat _ _ _ H1). now rewrite E.
  - apply (IH zs (dc_gain s * v)); [now rewrite E|exact H].
Qed.

Lemma steady_cascade ss :
  Forall regular ss ->
  forall zs x v,
    feq x (Num v) -> steady ss zs v ->
    feq (fst (cascade ss zs x)) (Num (overall_gain ss * v))
    /\ steady ss (snd (cascade ss zs x)) v.
Proof.
  intros D. induction D as [|s ss Ds _ IH]; intros zs x v Hx H.
  - destruct zs; [|contradiction]. cbn [cascade fst snd steady].
    split; [|exact I].
    apply (feq_num_compat _ _ _ Hx). unfold overall_gain. cbn [fold_right].
    ring.
  - destruct zs as [|z zs]; [contradiction|].
    cbn [steady] in H. destruct H as (H0 & H1 & H).
    destruct (steady_biquad_step s x z v Ds Hx H0 H1) as (Hy & G0 & G1).
    cbn [cascade].
    destruct (biquad_step s x z) as [y z'] eqn:E. cbn [fst snd] in Hy, G0, G1.
    destruct (IH zs y (dc_gain s * v) Hy H) as [Ho Hs].
    destruct (cascade ss zs y) as [out zs''].
    cbn [fst snd] in *. split.
    + apply (feq_num_compat _ _ _ Ho).
      unfold overall_gain. cbn [fold_right]. ring.
    + cbn [steady]. cbn [fst snd]. now repeat split.
Qed.

Lemma steady_sosfilt ss :
  Forall regular ss ->
  forall xs zs v,
    Forall (fun x => feq x (Num v)) xs ->
    steady ss zs v ->
    Forall (fun y => feq y (Num (overall_gain ss * v))) (sosfilt ss xs zs).
Proof.
  intros D. induction xs as [|x xs IH]; intros zs v Hx H; [constructor|].
  inversion Hx as [|? ? Hx0 Hx']; subst.
  destruct (steady_cascade ss D zs x v Hx0 H) as [Hy Hs].
  cbn [sosfilt]. destruct (cascade ss zs x) as [y zs'].
  cbn [fst snd] in *. constructor; [exact Hy|]. now apply IH.
Qed.

Lemma steady_initial ss : forall scale x0 c0,
  feq x0 (Num c0) ->
  steady ss (scale_zi (sosfilt_zi_from scale ss) x0) (scale * c0).
Proof.
  induction ss as [|s ss IH]; intros scale x0 c0 H; [exact I|].
  cbn [sosfilt_zi_from scale_zi map steady fst snd].
  split; [|split].
  - apply feq_num_compat with (u := scale * fst (lfilter_zi s) * c0).
    + now apply feq_fscale_num.
    + ring.
  - apply feq_num_compat with (u := scale * snd (lfilter_zi s) * c0).
    + now apply feq_fscale_num.
    + ring.
  - apply steady_compat with (v := scale * dc_gain s * c0); [ring|].
    now apply IH.
Qed.

Lemma steady_sosfilt_zi ss x0 c0 :
  feq x0 (Num c0) -> steady ss (scale_zi (sosfilt_zi ss) x0) c0.
Proof.
  intros H. apply steady_compat with (v := 1 * c0); [ring|].
  now apply steady_initial.
Qed.

Lemma Forall_hd {A} (P : A -> Prop) d l : Forall P l -> l <> [] -> P (hd d l).
Proof. intros H N. destruct H; [contradiction|assumption]. Qed.

Lemma Forall_last {A} (P : A -> Prop) d l : Forall P l -> l <> [] -> P (last l d).
Proof.
  intros H. induction H as [|x l Hx Hl IH]; intros N; [contradiction|].
  destruct l as [|y l]; [exact Hx|].
  change (P (last (y :: l) d)). apply IH. discriminate.
Qed.

Lemma Forall_even_ext (P : pyfloat -> Prop) xs n :
  Forall P xs -> Forall P (even_ext xs n).
Proof.
  intros H. unfold even_ext.
  apply Forall_app; split; [|apply Forall_app; split].
  - apply Forall_rev, Forall_firstn, Forall_tl, H.
  - exact H.
  - apply Forall_firstn, Forall_tl, Forall_rev, H.
Qed.

(** A constant signal comes out of the zero-phase filter as the constant
    times the square of the gain at frequency zero. *)
Lemma constant_zero_phase ss xs c :
  Forall regular ss ->
  Forall (fun x => feq x (Num c)) xs ->
  Forall (fun y => feq y (Num (overall_gain ss * (overall_gain ss * c))))
         (spec_zero_phase ss xs).
Proof.
  intros D H. unfold spec_zero_phase.
  set (ext := even_ext xs (default_padlen ss)).
  assert (He : Forall (fun x => feq x (Num c)) ext)
    by now apply Forall_even_ext.
  destruct ext as [|e ext'] eqn:Eext.
  { cbn [sosfilt rev]. rewrite skipn_nil, firstn_nil. constructor. }
  rewrite <- Eext in *.
  assert (Ne : ext <> []) by (rewrite Eext; discriminate).
  set (fwd := sosfilt ss ext (scale_zi (sosfilt_zi ss) (hd NaN ext))).
  assert (Hf : Forall (fun y => feq y (Num (overall_gain ss * c))) fwd).
  { apply steady_sosfilt; [exact D|exact He|].
    apply steady_sosfilt_zi. now apply Forall_hd. }
  assert (Nf : fwd <> []).
  { intros E. apply (f_equal (@List.length pyfloat)) in E.
    unfold fwd in E. rewrite sosfilt_length, Eext in E. discriminate E. }
  apply Forall_firstn, Forall_skipn, Forall_rev.
  apply steady_sosfilt; [exact D|now apply Forall_rev|].
  apply steady_sosfilt_zi. now apply Forall_last.
Qed.

(** X7.  In exact arithmetic a constant series without missing values
    comes back as a constant series: every element of the result is the
    constant times the square of the gain of the designed sections at
    frequency zero, so the series is returned unchanged when that gain is
    one.  No section may have [1 + a1 + a2 = 0]. *)
Theorem constant_series_keeps_its_level
  (design : nat -> btype -> Q -> forall o : output, coeffs o)
  (w : world) (dat : loc) (a o : DataArray pyfloat) (p c : Q) :
  nth_error (heap w) dat = Some (FloatArray a) ->
  wf_ndarray (values a) ->
  result_of design w dat p = Some o ->
  Forall regular (filtsos_of design p) ->
  Forall (fun x => feq x (Num c)) (data (values a)) ->
  List.length (data (values o)) = List.length (data (values a))
  /\ Forall
       (fun y =>
          feq y (Num (overall_gain (filtsos_of design p)
                      * (overall_gain (filtsos_of design p) * c))))
       (data (values o))
  /\ (overall_gain (filtsos_of design p) == 1 ->
      Forall (fun y => feq y (Num c)) (data (values o))).
Proof.
  intros L Hwf R D Hc.
  destruct (result_of_inv design w dat p o R)
    as (a' & n & rest & L' & V & S & Lg & ->).
  assert (a' = a) by congruence. subst a'.
  set (ss := filtsos_of design p) in *.
  assert (Main : Forall
            (fun y => feq y (Num (overall_gain ss * (overall_gain ss * c))))
            (data (values (spec_filter ss a)))).
  { apply Forall_forall. intros y Hy.
    apply In_nth_error in Hy. destruct Hy as [k Hk].
    assert (Hi : (k < List.length (data (values a)))%nat).
    { rewrite <- (spec_filter_length ss). apply nth_error_Some. congruence. }
    pose proof (nth_error_nth' (data (values a)) NaN Hi) as E.
    rewrite (spec_filter_nth_error ss a k _ E) in Hk.
    rewrite Forall_forall in Hc.
    pose proof (Hc _ (nth_error_In _ _ E)) as Hx.
    destruct (nth k (data (values a)) NaN) as [|q]; [contradiction|].
    cbn [isnan] in Hk. injection Hk as <-.
    unfold spec_filtered_at.
    rewrite (lane_zero_fill a n rest k S Hwf Hi).
    assert (Hl : Forall (fun x => feq x (Num c))
                   (map (fun x => match x with NaN => Num 0 | Num r => Num r end)
                        (lane NaN (values a) 0 k))).
    { apply Forall_map, Forall_forall. intros x Hx'.
      unfold lane in Hx'. apply in_map_iff in Hx'.
      destruct Hx' as (t & <- & Ht). apply in_seq in Ht.
      unfold wf_ndarray in Hwf. rewrite S in Hwf, Ht.
      cbn [prod_list fold_right nth] in Hwf, Ht. fold (prod_list rest) in Hwf.
      pose proof Hi as Hi'. rewrite Hwf in Hi'.
      destruct (axis0_position n rest k Hi') as [_ Hidx].
      rewrite S.
      specialize (Hidx t ltac:(lia)). rewrite <- Hwf in Hidx.
      pose proof (Hc _ (nth_In _ NaN Hidx)) as Hv.
      destruct (nth _ (data (values a)) NaN); [contradiction|exact Hv]. }
    pose proof (constant_zero_phase ss _ c D Hl) as Hz.
    rewrite Forall_forall in Hz. apply Hz, nth_In.
    rewrite spec_zero_phase_length; rewrite length_map, lane_length, S;
      cbn [nth]; [|exact Lg].
    unfold wf_ndarray in Hwf. rewrite S in Hwf.
    cbn [prod_list fold_right] in Hwf. fold (prod_list rest) in Hwf.
    rewrite Hwf in Hi. now destruct (axis0_position n rest k Hi). }
  split; [apply spec_filter_length|]. split; [exact Main|].
  intros G. eapply Forall_impl; [|exact Main].
  intros y Hy. apply (feq_num_compat _ _ _ Hy). rewrite G. ring.
Qed.

Lemma constant_series_keeps_its_level_witness :
  Forall (fun y => feq y (Num 7))
    (data (values (spec_filter (filtsos_of sample_design 120) constant_series))).
Proof.
  apply (constant_series_keeps_its_level sample_design constant_world 0%nat
           constant_series _ 120 7).
  - reflexivity.
  - reflexivity.
  - vm_compute. reflexivity.
  - repeat constructor; discriminate.
  - repeat constructor; reflexivity.
  - reflexivity.
Defined.

(** ** The filter is linear *)

Section Linearity.

Variables al be : Q.

Lemma lincomb_nan : lincomb al be NaN NaN NaN.
Proof. exact I. Qed.

Lemma lincomb_fadd x1 y1 z1 x2 y2 z2 :
  lincomb al be x1 y1 z1 -> lincomb al be x2 y2 z2 ->
  lincomb al be (fadd x1 x2) (fadd y1 y2) (fadd z1 z2).
Proof.
  unfold lincomb.
  destruct x1, y1, z1, x2, y2, z2;
    cbn [feq fadd fscale fmul]; try tauto.
  rewrite !Qred_correct. intros H1 H2. rewrite H1, H2. ring.
Qed.

Lemma lincomb_fsub x1 y1 z1 x2 y2 z2 :
  lincomb al be x1 y1 z1 -> lincomb al be x2 y2 z2 ->
  lincomb al be (fsub x1 x2) (fsub y1 y2) (fsub z1 z2).
Proof.
  unfold lincomb.
  destruct x1, y1, z1, x2, y2, z2;
    cbn [feq fadd fsub fscale fmul]; try tauto.
  rewrite !Qred_correct. intros H1 H2. rewrite H1, H2. ring.
Qed.

Lemma lincomb_fscale k x y z :
  lincomb al be x y z ->
  lincomb al be (fscale k x) (fscale k y) (fscale k z).
Proof.
  unfold lincomb.
  destruct x, y, z; cbn [feq fadd fscale fmul]; try tauto.
  rewrite !Qred_correct. intros H. rewrite H. ring.
Qed.

Lemma lincomb_biquad_step s x y z u v t :
  lincomb al be x y z -> lincomb_state al be u v t ->
  lincomb al be (fst (biquad_step s x u)) (fst (biquad_step s y v))
    (fst (biquad_step s z t))
  /\ lincomb_state al be (snd (biquad_step s x u)) (snd (biquad_step s y v))
       (snd (biquad_step s z t)).
Proof.
  intros H [H0 H1]. unfold biquad_step, lincomb_state. cbn [fst snd].
  assert (Hn : lincomb al be (fadd (fscale (b0 s) x) (fst u))
                 (fadd (fscale (b0 s) y) (fst v))
                 (fadd (fscale (b0 s) z) (fst t)))
    by (apply lincomb_fadd; [now apply lincomb_fscale|exact H0]).
  split; [exact Hn|]. split.
  - apply lincomb_fadd; [|exact H1].
    apply lincomb_fsub; now apply lincomb_fscale.
  - apply lincomb_fsub; now apply lincomb_fscale.
Qed.

Lemma lincomb_cascade ss : forall us vs ts x y z,
  Forall3 (lincomb_state al be) us vs ts ->
  lincomb al be x y z ->
  lincomb al be (fst (cascade ss us x)) (fst (cascade ss vs y))
    (fst (cascade ss ts z))
  /\ Forall3 (lincomb_state al be) (snd (cascade ss us x))
       (snd (cascade ss vs y)) (snd (cascade ss ts z)).
Proof.
  induction ss as [|s ss IH]; intros us vs ts x y z Hs H.
  - cbn [cascade fst snd]. split; [exact H|constructor].
  - destruct Hs as [|u v t us vs ts Hz Hs].
    + cbn [cascade fst snd]. split; [exact H|constructor].
    + destruct (lincomb_biquad_step s x y z u v t H Hz) as [Hy Hz'].
      cbn [cascade].
      destruct (biquad_step s x u) as [x' u'].
      destruct (biquad_step s y v) as [y' v'].
      destruct (biquad_step s z t) as [z' t'].
      cbn [fst snd] in Hy, Hz'.
      destruct (IH us vs ts x' y' z' Hs Hy) as [Ho Hs'].
      destruct (cascade ss us x') as [ox us'].
      destruct (cascade ss vs y') as [oy vs'].
      destruct (cascade ss ts z') as [oz ts'].
      cbn [fst snd] in *. split; [exact Ho|now constructor].
Qed.

Lemma lincomb_sosfilt ss : forall xs ys zs us vs ts,
  Forall3 (lincomb al be) xs ys zs ->
  Forall3 (lincomb_state al be) us vs ts ->
  Forall3 (lincomb al be) (sosfilt ss xs us) (sosfilt ss ys vs)
    (sosfilt ss zs ts).
Proof.
  intros xs ys zs us vs ts H. revert us vs ts.
  induction H as [|x y z xs ys zs Hx _ IH]; intros us vs ts Hs;
    [constructor|].
  destruct (lincomb_cascade ss us vs ts x y z Hs Hx) as [Ho Hs'].
  cbn [sosfilt].
  destruct (cascade ss us x) as [ox us'].
  destruct (cascade ss vs y) as [oy vs'].
  destruct (cascade ss ts z) as [oz ts'].
  cbn [fst snd] in *. constructor; [exact Ho|now apply IH].
Qed.

Lemma lincomb_scale_zi zi x y z :
  lincomb al be x y z ->
  Forall3 (lincomb_state al be) (scale_zi zi x) (scale_zi zi y)
    (scale_zi zi z).
Proof.
  intros H. unfold scale_zi.
  induction zi as [|c zi IH]; cbn [map]; constructor; [|exact IH].
  split; cbn [fst snd]; now apply lincomb_fscale.
Qed.

End Linearity.

(** *** Lists related element by element *)

Lemma Forall3_length {A B C} (R : A -> B -> C -> Prop) l l' l'' :
  Forall3 R l l' l'' ->
  List.length l' = List.length l /\ List.length l'' = List.length l.
Proof.
  induction 1 as [|x y z l l' l'' _ _ [IH1 IH2]]; [now split|].
  cbn [List.length]. now rewrite IH1, IH2.
Qed.

Lemma Forall3_app {A B C} (R : A -> B -> C -> Prop) l1 l1' l1'' l2 l2' l2'' :
  Forall3 R l1 l1' l1'' -> Forall3 R l2 l2' l2'' ->
  Forall3 R (l1 ++ l2) (l1' ++ l2') (l1'' ++ l2'').
Proof.
  induction 1; intros H2; [exact H2|]. cbn [app]. constructor; auto.
Qed.

Lemma Forall3_rev {A B C} (R : A -> B -> C -> Prop) l l' l'' :
  Forall3 R l l' l'' -> Forall3 R (rev l) (rev l') (rev l'').
Proof.
  induction 1; [constructor|]. cbn [rev].
  apply Forall3_app; [assumption|]. repeat constructor. assumption.
Qed.

Lemma Forall3_tl {A B C} (R : A -> B -> C -> Prop) l l' l'' :
  Forall3 R l l' l'' -> Forall3 R (tl l) (tl l') (tl l'').
Proof. destruct 1; [constructor|assumption]. Qed.

Lemma Forall3_firstn {A B C} (R : A -> B -> C -> Prop) n : forall l l' l'',
  Forall3 R l l' l'' -> Forall3 R (firstn n l) (firstn n l') (firstn n l'').
Proof.
  induction n as [|n IH]; intros l l' l'' H; [constructor|].
  destruct H; cbn [firstn]; constructor; auto.
Qed.

Lemma Forall3_skipn {A B C} (R : A -> B -> C -> Prop) n : forall l l' l'',
  Forall3 R l l' l'' -> Forall3 R (skipn n l) (skipn n l') (skipn n l'').
Proof.
  induction n as [|n IH]; intros l l' l'' H; [exact H|].
  destruct H; cbn [skipn]; [constructor|auto].
Qed.

Lemma Forall3_nth {A B C} (R : A -> B -> C -> Prop) d d' d'' :
  R d d' d'' ->
  forall l l' l'', Forall3 R l l' l'' ->
  forall n, R (nth n l d) (nth n l' d') (nth n l'' d'').
Proof.
  intros Hd l l' l'' H.
  induction H; intros [|n]; cbn [nth]; auto.
Qed.

Lemma Forall3_hd {A B C} (R : A -> B -> C -> Prop) d d' d'' l l' l'' :
  R d d' d'' -> Forall3 R l l' l'' -> R (hd d l) (hd d' l') (hd d'' l'').
Proof. intros Hd H. destruct H; assumption. Qed.

Lemma Forall3_last {A B C} (R : A -> B -> C -> Prop) d d' d'' l l' l'' :
  R d d' d'' -> Forall3 R l l' l'' -> R (last l d) (last l' d') (last l'' d'').
Proof.
  intros Hd H. induction H as [|x y z l l' l'' Hx H IH]; [exact Hd|].
  destruct H; [exact Hx|]. exact IH.
Qed.

Lemma Forall3_map {A B C D} (R : A -> B -> C -> Prop)
  (f : D -> A) (g : D -> B) (h : D -> C) (l : list D) :
  (forall t, R (f t) (g t) (h t)) ->
  Forall3 R (map f l) (map g l) (map h l).
Proof. intros H. induction l; cbn [map]; constructor; auto. Qed.

(** The zero-phase filter of a combination of two signals is the
    combination of their zero-phase filters. *)
Lemma lincomb_zero_phase al be ss xs ys zs :
  Forall3 (lincomb al be) xs ys zs ->
  Forall3 (lincomb al be) (spec_zero_phase ss xs) (spec_zero_phase ss ys)
    (spec_zero_phase ss zs).
Proof.
  intros H. unfold spec_zero_phase.
  destruct (Forall3_length _ _ _ _ H) as [E1 E2]. rewrite E1, E2.
  assert (He : Forall3 (lincomb al be)
                 (even_ext xs (default_padlen ss))
                 (even_ext ys (default_padlen ss))
                 (even_ext zs (default_padlen ss))).
  { unfold even_ext. repeat apply Forall3_app.
    - apply Forall3_rev, Forall3_firstn, Forall3_tl, H.
    - exact H.
    - apply Forall3_firstn, Forall3_tl, Forall3_rev, H. }
  apply Forall3_firstn, Forall3_skipn, Forall3_rev.
  assert (Hf : Forall3 (lincomb al be)
                 (sosfilt ss (even_ext xs (default_padlen ss))
                    (scale_zi (sosfilt_zi ss)
                       (hd NaN (even_ext xs (default_padlen ss)))))
                 (sosfilt ss (even_ext ys (default_padlen ss))
                    (scale_zi (sosfilt_zi ss)
                       (hd NaN (even_ext ys (default_padlen ss)))))
                 (sosfilt ss (even_ext zs (default_padlen ss))
                    (scale_zi (sosfilt_zi ss)
                       (hd NaN (even_ext zs (default_padlen ss)))))).
  { apply lincomb_sosfilt; [exact He|].
    apply lincomb_scale_zi, Forall3_hd; [exact I|exact He]. }
  apply lincomb_sosfilt; [now apply Forall3_rev|].
  apply lincomb_scale_zi, Forall3_last; [exact I|exact Hf].
Qed.

(** *** Arrays *)

Lemma feq_refl x : feq x x.
Proof. destruct x; cbn [feq]; [exact I|reflexivity]. Qed.

Lemma lincomb_zero_fill al be x y z :
  isnan x = isnan y ->
  lincomb al be x y z ->
  lincomb al be
    (match x with NaN => Num 0 | Num q => Num q end)
    (match y with NaN => Num 0 | Num q => Num q end)
    (match z with NaN => Num 0 | Num q => Num q end).
Proof.
  unfold lincomb.
  destruct x, y, z; cbn [isnan feq fadd fscale fmul];
    try tauto; try discriminate.
  intros _ _. rewrite !Qred_correct. ring.
Qed.

Lemma lincomb_same_mask al be x y z :
  isnan x = isnan y -> lincomb al be x y z -> isnan z = isnan x.
Proof.
  unfold lincomb.
  destruct x, y, z; cbn [isnan feq fadd fscale fmul];
    try tauto; try discriminate.
Qed.

Lemma spec_filter_nth ss a k :
  (k < List.length (data (values a)))%nat ->
  nth k (data (values (spec_filter ss a))) NaN
  = if isnan (nth k (data (values a)) NaN)
    then NaN
    else spec_filtered_at ss a k.
Proof.
  intros Hk. apply nth_error_nth.
  apply spec_filter_nth_error. now apply nth_error_nth'.
Qed.

(** The filtered combination of two arrays with the same missing positions
    is the combination of the filtered arrays. *)
Lemma lincomb_spec_filter al be ss (a1 a2 a3 : DataArray pyfloat) :
  shape (values a2) = shape (values a1) ->
  shape (values a3) = shape (values a1) ->
  List.length (data (values a2)) = List.length (data (values a1)) ->
  List.length (data (values a3)) = List.length (data (values a1)) ->
  (forall i, isnan (nth i (data (values a1)) NaN)
             = isnan (nth i (data (values a2)) NaN)) ->
  (forall i, lincomb al be (nth i (data (values a1)) NaN)
               (nth i (data (values a2)) NaN)
               (nth i (data (values a3)) NaN)) ->
  forall k,
    lincomb al be (nth k (data (values (spec_filter ss a1))) NaN)
      (nth k (data (values (spec_filter ss a2))) NaN)
      (nth k (data (values (spec_filter ss a3))) NaN).
Proof.
  intros S2 S3 E2 E3 M H k.
  destruct (le_lt_dec (List.length (data (values a1))) k) as [Ov|Hk].
  { rewrite !nth_overflow by (rewrite spec_filter_length; lia). exact I. }
  rewrite !spec_filter_nth by lia.
  pose proof (lincomb_same_mask al be _ _ _ (M k) (H k)) as M3.
  rewrite M3, <- (M k).
  destruct (isnan (nth k (data (values a1)) NaN)); [exact I|].
  unfold spec_filtered_at. rewrite S2, S3.
  apply Forall3_nth; [exact I|].
  apply lincomb_zero_phase.
  unfold lane, spec_zero_fill. cbn [shape data]. rewrite S2, S3.
  apply Forall3_map. intros t.
  set (idx := (_ + _)%nat).
  destruct (le_lt_dec (List.length (data (values a1))) idx) as [Ov|Hi].
  { rewrite !nth_overflow by (rewrite length_map; lia). exact I. }
  rewrite !(nth_map_in_range _ _ _ NaN NaN) by lia.
  apply lincomb_zero_fill; [apply M|apply H].
Qed.

Lemma scaled_is_lincomb c x z :
  feq z (fscale c x) <-> lincomb c 0 x x z.
Proof.
  unfold lincomb.
  destruct x, z; cbn [feq fadd fscale fmul]; try tauto.
  rewrite !Qred_correct.
  split; intros H; rewrite H; ring.
Qed.

Lemma sum_is_lincomb x y z :
  feq z (fadd x y) <-> lincomb 1 1 x y z.
Proof.
  unfold lincomb.
  destruct x, y, z; cbn [feq fadd fscale fmul]; try tauto.
  rewrite !Qred_correct.
  split; intros H; rewrite H; ring.
Qed.

(** X8.  Scaling commutes with the filter: when a second array of the same
    shape holds the first one times [c] (a change of units), the call on it
    returns whenever the call on the first does, and its result is the first
    result times [c], missing where the first is missing. *)
Theorem scaling_commutes_with_the_filter
  (design : nat -> btype -> Q -> forall o : output, coeffs o)
  (w : world) (dat dat' : loc) (a a' o : DataArray pyfloat) (p c : Q) :
  nth_error (heap w) dat = Some (FloatArray a) ->
  nth_error (heap w) dat' = Some (FloatArray a') ->
  shape (values a') = shape (values a) ->
  List.length (data (values a')) = List.length (data (values a)) ->
  (forall i, feq (nth i (data (values a')) NaN)
               (fscale c (nth i (data (values a)) NaN))) ->
  result_of design w dat p = Some o ->
  exists o',
    result_of design w dat' p = Some o'
    /\ forall i, feq (nth i (data (values o')) NaN)
                   (fscale c (nth i (data (values o)) NaN)).
Proof.
  intros L L' S E H R.
  destruct (result_of_inv design w dat p o R)
    as (b & n & rest & Lb & V & Sb & Lg & ->).
  assert (b = a) by congruence. subst b.
  set (ss := filtsos_of design p) in *.
  exists (spec_filter ss a').
  assert (S' : shape (values a') = n :: rest) by congruence.
  split; [exact (result_of_success design w dat' a' p n rest L' V S' Lg)|].
  intros i. apply (proj2 (scaled_is_lincomb _ _ _)).
  apply lincomb_spec_filter; try reflexivity; try assumption.
  intros k. apply (proj1 (scaled_is_lincomb _ _ _)), H.
Qed.

(** X9.  The filter of a sum is the sum of the filters: for three arrays of
    the same shape, the first two missing at the same positions and the
    third their sum, the call on the third returns whenever the calls on the
    first two do, and its result is the sum of their results. *)
Theorem filter_of_a_sum_is_the_sum
  (design : nat -> btype -> Q -> forall o : output, coeffs o)
  (w : world) (dat1 dat2 dat3 : loc) (a1 a2 a3 o1 o2 : DataArray pyfloat)
  (p : Q) :
  nth_error (heap w) dat1 = Some (FloatArray a1) ->
  nth_error (heap w) dat2 = Some (FloatArray a2) ->
  nth_error (heap w) dat3 = Some (FloatArray a3) ->
  shape (values a2) = shape (values a1) ->
  shape (values a3) = shape (values a1) ->
  List.length (data (values a2)) = List.length (data (values a1)) ->
  List.length (data (values a3)) = List.length (data (values a1)) ->
  (forall i, isnan (nth i (data (values a1)) NaN)
             = isnan (nth i (data (values a2)) NaN)) ->
  (forall i, feq (nth i (data (values a3)) NaN)
               (fadd (nth i (data (values a1)) NaN)
                     (nth i (data (values a2)) NaN))) ->
  result_of design w dat1 p = Some o1 ->
  result_of design w dat2 p = Some o2 ->
  exists o3,
    result_of design w dat3 p = Some o3
    /\ forall i, feq (nth i (data (values o3)) NaN)
                   (fadd (nth i (data (values o1)) NaN)
                         (nth i (data (values o2)) NaN)).
Proof.
  intros L1 L2 L3 S2 S3 E2 E3 M H R1 R2.
  destruct (result_of_inv design w dat1 p o1 R1)
    as (b & n & rest & Lb & V & Sb & Lg & ->).
  assert (b = a1) by congruence. subst b.
  destruct (result_of_inv design w dat2 p o2 R2)
    as (b & n' & rest' & Lb' & _ & _ & _ & ->).
  assert (b = a2) by congruence. subst b.
  set (ss := filtsos_of design p) in *.
  exists (spec_filter ss a3).
  assert (S' : shape (values a3) = n :: rest) by congruence.
  split; [exact (result_of_success design w dat3 a3 p n rest L3 V S' Lg)|].
  intros i. apply (proj2 (sum_is_lincomb _ _ _)).
  apply lincomb_spec_filter; try assumption.
  intros k. apply (proj1 (sum_is_lincomb _ _ _)), H.
Qed.

(** *** On the sample arrays *)

Lemma nth_map_fscale c l i :
  nth i (map (fscale c) l) NaN = fscale c (nth i l NaN).
Proof. change NaN with (fscale c NaN) at 1. apply map_nth. Qed.

Lemma nth_map_fadd : forall l l' i,
  List.length l' = List.length l ->
  nth i (map (fun xy => fadd (fst xy) (snd xy)) (combine l l')) NaN
  = fadd (nth i l NaN) (nth i l' NaN).
Proof.
  induction l as [|x l IH]; intros [|y l'] i E; try discriminate E.
  - now destruct i.
  - destruct i as [|i]; [reflexivity|].
    cbn [combine map nth]. apply IH. now injection E.
Qed.

Lemma scaling_commutes_with_the_filter_witness :
  exists o',
    result_of sample_design linear_world 1%nat 120 = Some o'
    /\ forall i,
         feq (nth i (data (values o')) NaN)
           (fscale (5 # 9)
              (nth i (data (values (spec_filter (filtsos_of sample_design 120)
                                      sample_series))) NaN)).
Proof.
  apply (scaling_commutes_with_the_filter sample_design linear_world
           0%nat 1%nat sample_series scaled_series).
  - reflexivity.
  - reflexivity.
  - reflexivity.
  - reflexivity.
  - intros i. unfold scaled_series, map_values. cbn [values data].
    rewrite nth_map_fscale. apply feq_refl.
  - vm_compute. reflexivity.
Defined.

Lemma filter_of_a_sum_is_the_sum_witness :
  exists o3,
    result_of sample_design linear_world 2%nat 120 = Some o3
    /\ forall i,
         feq (nth i (data (values o3)) NaN)
           (fadd
              (nth i (data (values (spec_filter (filtsos_of sample_design 120)
                                      sample_series))) NaN)
              (nth i (data (values (spec_filter (filtsos_of sample_design 120)
                                      scaled_series))) NaN)).
Proof.
  apply (filter_of_a_sum_is_the_sum sample_design linear_world
           0%nat 1%nat 2%nat sample_series scaled_series summed_series).
  - reflexivity.
  - reflexivity.
  - reflexivity.
  - reflexivity.
  - reflexivity.
  - reflexivity.
  - reflexivity.
  - intros i. unfold scaled_series, map_values. cbn [values data].
    rewrite nth_map_fscale. now destruct (nth i _ NaN).
  - intros i. unfold summed_series. cbn [values data].
    rewrite nth_map_fadd by reflexivity. apply feq_refl.
  - vm_compute. reflexivity.
  - vm_compute. reflexivity.
Defined.
